(** * datapool: named cells with a value and the timestamp of the last write

    A shallow embedding of [datapool.go].  The pool is the state that the
    operations thread; [sync.RWMutex] is modelled by its reader count and
    writer flag, and the reading of [time.Now().UnixNano()] taken by [put]
    is an explicit argument of the operation. *)

From Stdlib Require Import ZArith Lia Bool.
From stdpp Require Import base list strings.

Local Open Scope Z_scope.

(** ** 64-bit integers

    Timestamps are [int64].  The library only stores and compares them; the
    arithmetic [t - 1], [t + 1] of a caller wraps. *)

Definition int64_min : Z := - 2 ^ 63.
Definition int64_max : Z := 2 ^ 63 - 1.

Definition is_int64 (z : Z) : Prop := int64_min <= z <= int64_max.

Definition wrap64 (z : Z) : Z := (z + 2 ^ 63) mod 2 ^ 64 - 2 ^ 63.

Definition int64_add (a b : Z) : Z := wrap64 (a + b).
Definition int64_sub (a b : Z) : Z := wrap64 (a - b).

(** ** sync.RWMutex

    The zero value is an unlocked mutex.  An operation that would block the
    calling goroutine for ever, or that the runtime aborts ("unlock of
    unlocked RWMutex"), has no result. *)

Record RWMutex : Type := mkRWMutex { readers : nat; writer : bool }.

Definition unlocked : RWMutex := mkRWMutex 0 false.

Definition RLock (m : RWMutex) : option RWMutex :=
  if writer m then None else Some (mkRWMutex (S (readers m)) false).

Definition RUnlock (m : RWMutex) : option RWMutex :=
  match readers m with
  | O => None
  | S n => Some (mkRWMutex n (writer m))
  end.

Definition Lock (m : RWMutex) : option RWMutex :=
  if writer m then None
  else match readers m with
       | O => Some (mkRWMutex 0 true)
       | S _ => None
       end.

Definition Unlock (m : RWMutex) : option RWMutex :=
  if writer m then Some (mkRWMutex (readers m) false) else None.

Section datapool.

(** The dynamic values a cell can hold; Go's [nil] interface is [None]. *)
Context {V : Type}.

Definition any : Type := option V.

(** ** Data model *)

Record bucket : Type := mkbucket {
  name : string;
  value : any;
  timestamp : Z;
  guard : RWMutex
}.

Record DataPool : Type := mkDataPool { buckets : list bucket }.

(** The handle.  Its [pool] pointer designates the pool whose state is
    threaded through the operations below, so only [id] is kept. *)
Record Bucket : Type := mkBucket { id : Z }.

Definition NewDataPool : DataPool := mkDataPool [].

(** [len(p.buckets)] *)
Definition len (p : DataPool) : Z := Z.of_nat (length (buckets p)).

(** ** Operations as state transformers

    [None]: the call does not return. *)

Definition M (A : Type) : Type := DataPool -> option (A * DataPool).

Definition ret {A} (a : A) : M A := fun p => Some (a, p).

Definition bind {A B} (m : M A) (k : A -> M B) : M B :=
  fun p => match m p with
           | Some (a, p') => k a p'
           | None => None
           end.

Definition stuck {A} : M A := fun _ => None.

Notation "'do' x <- m 'in' k" := (bind m (fun x => k))
  (at level 10, x name, m at level 100, k at level 200).
Notation "'call' m 'in' k" := (bind m (fun _ => k))
  (at level 10, m at level 100, k at level 200).

(** [p.buckets[i]], read through the pointer stored in the slice. *)
Definition cell (i : Z) : M bucket :=
  fun p => match buckets p !! Z.to_nat i with
           | Some b => Some (b, p)
           | None => None
           end.

(** A write through the pointer [p.buckets[i]]. *)
Definition modify (i : Z) (f : bucket -> bucket) : M unit :=
  fun p => match buckets p !! Z.to_nat i with
           | Some b => Some (tt, mkDataPool (<[Z.to_nat i := f b]> (buckets p)))
           | None => None
           end.

Definition set_value (v : any) (b : bucket) : bucket :=
  mkbucket (name b) v (timestamp b) (guard b).
Definition set_timestamp (t : Z) (b : bucket) : bucket :=
  mkbucket (name b) (value b) t (guard b).
Definition set_guard (g : RWMutex) (b : bucket) : bucket :=
  mkbucket (name b) (value b) (timestamp b) g.

(** [p.buckets[i].guard.op()] *)
Definition on_guard (op : RWMutex -> option RWMutex) (i : Z) : M unit :=
  do b <- cell i in
  match op (guard b) with
  | Some g => modify i (set_guard g)
  | None => stuck
  end.

(** The bounds test shared by [get] and [put]:
    [id < 0 || id >= len(p.buckets)]. *)
Definition out_of_range (p : DataPool) (id : Z) : bool :=
  (id <? 0) || (id >=? len p).

Definition get (id : Z) (ts : Z) : M (any * Z * bool) :=
  fun p =>
    if out_of_range p id then ret (None, ts, false) p
    else (call on_guard RLock id in
          do b <- cell id in
          let result := (value b, timestamp b, timestamp b >? ts) in
          call on_guard RUnlock id in
          ret result) p.

(** [now] is the reading of [time.Now().UnixNano()]. *)
Definition put (id : Z) (v : any) (now : Z) : M Z :=
  fun p =>
    if out_of_range p id then ret 0 p
    else (call on_guard Lock id in
          call modify id (set_value v) in
          call modify id (set_timestamp now) in
          do b <- cell id in
          let result := timestamp b in
          call on_guard Unlock id in
          ret result) p.

(** The [range] loop of [DataPool.Bucket]: the index of the first cell
    named [n], counting from [i]. *)
Fixpoint scan (n : string) (i : nat) (bs : list bucket) : option nat :=
  match bs with
  | [] => None
  | b :: bs' => if String.eqb (name b) n then Some i else scan n (S i) bs'
  end.

Definition new_bucket (n : string) : bucket := mkbucket n None 0 unlocked.

(** The tail of [DataPool.Bucket], after a loop that found nothing:
    [p.buckets = append(p.buckets, b)], then the handle with
    [id: len(p.buckets) - 1]. *)
Definition append_new (n : string) : M Bucket :=
  fun p =>
    let p' := mkDataPool (buckets p ++ [new_bucket n]) in
    ret (mkBucket (len p' - 1)) p'.

Definition DataPool_Bucket (n : string) : M Bucket :=
  fun p =>
    match scan n 0 (buckets p) with
    | Some i => ret (mkBucket (Z.of_nat i)) p
    | None => append_new n p
    end.

Definition Get (b : Bucket) (ts : Z) : M (any * Z * bool) := get (id b) ts.

Definition Put (b : Bucket) (v : any) (now : Z) : M Z := put (id b) v now.

(** The cell a [put] of [v] at clock reading [now] leaves behind. *)
Definition written (b : bucket) (v : any) (now : Z) : bucket :=
  mkbucket (name b) v now (guard b).

(** ** Sequences of calls made one after the other *)

Inductive op : Type :=
| OpBucket (n : string)
| OpGet (i ts : Z)
| OpPut (i : Z) (v : any) (now : Z).

Inductive answer : Type :=
| ABucket (h : Bucket)
| AGet (r : any * Z * bool)
| APut (t : Z).

Definition step (o : op) : M answer :=
  match o with
  | OpBucket n => do h <- DataPool_Bucket n in ret (ABucket h)
  | OpGet i ts => do r <- get i ts in ret (AGet r)
  | OpPut i v now => do t <- put i v now in ret (APut t)
  end.

Fixpoint steps (os : list op) : M (list answer) :=
  match os with
  | [] => ret []
  | o :: os' =>
      do a <- step o in
      do rest <- steps os' in
      ret (a :: rest)
  end.

(** Does the call write cell [i]? *)
Definition puts_to (i : Z) (o : op) : bool :=
  match o with
  | OpPut j _ _ => j =? i
  | _ => false
  end.

(** ** Invariants of the pool *)

Definition names (p : DataPool) : list string := map name (buckets p).

(** No goroutine holds a cell's mutex: the state between two calls. *)
Definition quiescent (p : DataPool) : Prop :=
  Forall (fun b => guard b = unlocked) (buckets p).

Definition pool_inv (p : DataPool) : Prop :=
  NoDup (names p) /\ quiescent p.

(** A cell as [DataPool.Bucket] creates it and no [put] has touched it. *)
Definition pristine (b : bucket) : Prop :=
  value b = None /\ timestamp b = 0.

(** Slot [k] is empty or holds a cell that was never written. *)
Definition untouched (k : nat) (p : DataPool) : Prop :=
  match buckets p !! k with
  | Some b => pristine b
  | None => True
  end.

(** Every cell of [p] is still there in [p'], in its slot, under its name. *)
Definition keeps_cells (p p' : DataPool) : Prop :=
  forall k b, buckets p !! k = Some b ->
    exists b', buckets p' !! k = Some b' /\ name b' = name b.

(** The effect of one call on a pool no goroutine is working on. *)
Definition step_effect (o : op) (p p' : DataPool) : Prop :=
  quiescent p' /\
  (NoDup (names p) -> NoDup (names p')) /\
  keeps_cells p p' /\
  (forall k b, puts_to (Z.of_nat k) o = false ->
     buckets p !! k = Some b -> buckets p' !! k = Some b) /\
  (forall k, puts_to (Z.of_nat k) o = false ->
     untouched k p -> untouched k p') /\
  match o with
  | OpBucket n => p' = p \/ p' = mkDataPool (buckets p ++ [new_bucket n])
  | OpGet _ _ => p' = p
  | OpPut _ _ _ => len p' = len p
  end.

(** The effect of a sequence of calls. *)
Definition run_effect (os : list op) (p p' : DataPool) : Prop :=
  quiescent p' /\
  (NoDup (names p) -> NoDup (names p')) /\
  keeps_cells p p' /\
  (forall k b, existsb (puts_to (Z.of_nat k)) os = false ->
     buckets p !! k = Some b -> buckets p' !! k = Some b) /\
  (forall k, existsb (puts_to (Z.of_nat k)) os = false ->
     untouched k p -> untouched k p').

(** ** Goroutines inside [DataPool.Bucket]

    [DataPool.Bucket] takes no lock, so between its loop and its append
    other goroutines run.  A goroutine is at one of three points; a
    schedule names the goroutine that moves next.  The loop and the append
    are each taken as one step, which leaves out the interleavings inside
    them: every schedule here is an execution of the program. *)

Inductive goroutine : Type :=
| Entered (n : string)
| Missed (n : string)
| Returned (h : Bucket).

Definition advance (g : goroutine) : M goroutine :=
  fun p =>
    match g with
    | Entered n =>
        match scan n 0 (buckets p) with
        | Some i => ret (Returned (mkBucket (Z.of_nat i))) p
        | None => ret (Missed n) p
        end
    | Missed n => (do h <- append_new n in ret (Returned h)) p
    | Returned _ => None
    end.

Fixpoint schedule (sched : list nat) (gs : list goroutine) : M (list goroutine) :=
  match sched with
  | [] => ret gs
  | t :: sched' =>
      match gs !! t with
      | Some g => do g' <- advance g in schedule sched' (<[t := g']> gs)
      | None => stuck
      end
  end.

(** How many cells carry the name [n]. *)
Definition count_name (n : string) (p : DataPool) : nat :=
  length (filter (fun b => name b = n) (buckets p)).

(** The name a call resolves, if it is a call of [DataPool.Bucket]. *)
Definition resolves (o : op) : option string :=
  match o with
  | OpBucket n => Some n
  | _ => None
  end.

(** The names a sequence of calls resolves, in order. *)
Definition requested (os : list op) : list string := omap resolves os.

(** Every cell holds what [DataPool.Bucket] created it with, or the value
    and the clock reading of one [put] among [os]. *)
Definition provenance (os : list op) (p : DataPool) : Prop :=
  forall k b, buckets p !! k = Some b ->
    pristine b \/ OpPut (Z.of_nat k) (value b) (timestamp b) ∈ os.

(** The clock reading a call takes is not the zero timestamp. *)
Definition clock_nonzero (o : op) : Prop :=
  match o with
  | OpPut _ _ now => now <> 0
  | _ => True
  end.

(** Where a goroutine that has just entered stands after its loop when the
    loop finds the name; other goroutines are left as they are. *)
Definition settle (p : DataPool) (g : goroutine) : goroutine :=
  match g with
  | Entered n =>
      match scan n 0 (buckets p) with
      | Some i => Returned (mkBucket (Z.of_nat i))
      | None => g
      end
  | _ => g
  end.

(** ** The bounds test *)

Lemma len_nonneg (p : DataPool) : 0 <= len p.
Proof. unfold len. lia. Qed.

Lemma out_of_range_false (p : DataPool) (i : Z) :
  out_of_range p i = false <-> 0 <= i < len p.
Proof. unfold out_of_range. rewrite orb_false_iff. lia. Qed.

Lemma out_of_range_true (p : DataPool) (i : Z) :
  out_of_range p i = true <-> i < 0 \/ len p <= i.
Proof. unfold out_of_range. rewrite orb_true_iff. lia. Qed.

Lemma lookup_bounds (p : DataPool) (i : Z) (b : bucket) :
  0 <= i -> buckets p !! Z.to_nat i = Some b -> 0 <= i < len p.
Proof.
  intros Hi Hb. apply lookup_lt_Some in Hb. unfold len. lia.
Qed.

Lemma in_range_lookup (p : DataPool) (i : Z) :
  0 <= i < len p -> exists b, buckets p !! Z.to_nat i = Some b.
Proof.
  intros Hi. apply lookup_lt_is_Some_2. unfold len in Hi. lia.
Qed.

(** ** The primitives of the state transformers *)

Lemma bind_Some {A B} (m : M A) (k : A -> M B) (p p' : DataPool) (a : A) :
  m p = Some (a, p') -> bind m k p = k a p'.
Proof. intros H. unfold bind. by rewrite H. Qed.

Lemma cell_Some (p : DataPool) (i : Z) (b : bucket) :
  buckets p !! Z.to_nat i = Some b -> cell i p = Some (b, p).
Proof. intros H. unfold cell. by rewrite H. Qed.

(** The pool after a write through the pointer in slot [i]. *)
Lemma modify_Some (p : DataPool) (i : Z) (f : bucket -> bucket) (b : bucket) :
  buckets p !! Z.to_nat i = Some b ->
  modify i f p = Some (tt, mkDataPool (<[Z.to_nat i := f b]> (buckets p))).
Proof. intros H. unfold modify. by rewrite H. Qed.

Lemma on_guard_Some (p : DataPool) (i : Z) (b : bucket)
    (op : RWMutex -> option RWMutex) (g : RWMutex) :
  buckets p !! Z.to_nat i = Some b -> op (guard b) = Some g ->
  on_guard op i p
  = Some (tt, mkDataPool (<[Z.to_nat i := set_guard g b]> (buckets p))).
Proof.
  intros Hb Hg. unfold on_guard.
  rewrite (bind_Some _ _ _ _ _ (cell_Some _ _ _ Hb)), Hg.
  by apply modify_Some.
Qed.

Lemma lookup_updated (p : DataPool) (i : Z) (b b' : bucket) :
  buckets p !! Z.to_nat i = Some b ->
  buckets (mkDataPool (<[Z.to_nat i := b']> (buckets p))) !! Z.to_nat i
  = Some b'.
Proof.
  intros Hb. simpl. apply list_lookup_insert_eq. by eapply lookup_lt_Some.
Qed.

(** ** [get] and [put] on one cell *)

Lemma get_cell (p : DataPool) (i ts : Z) (b : bucket) :
  0 <= i -> buckets p !! Z.to_nat i = Some b -> writer (guard b) = false ->
  get i ts p = Some ((value b, timestamp b, timestamp b >? ts), p).
Proof.
  intros Hi Hb Hw. pose proof (lookup_bounds _ _ _ Hi Hb) as Hr.
  apply out_of_range_false in Hr.
  unfold get. rewrite Hr.
  set (g1 := mkRWMutex (S (readers (guard b))) false).
  assert (RLock (guard b) = Some g1) as H1 by (unfold RLock; by rewrite Hw).
  rewrite (bind_Some _ _ _ _ _ (on_guard_Some _ _ _ _ _ Hb H1)).
  pose proof (lookup_updated _ _ _ (set_guard g1 b) Hb) as Hb1.
  rewrite (bind_Some _ _ _ _ _ (cell_Some _ _ _ Hb1)).
  assert (RUnlock (guard (set_guard g1 b)) = Some (guard b)) as H2.
  { destruct b as [n v t [r w]]. simpl in *. by subst. }
  rewrite (bind_Some _ _ _ _ _ (on_guard_Some _ _ _ _ _ Hb1 H2)).
  unfold ret. simpl. do 2 f_equal.
  rewrite list_insert_insert_eq. destruct p as [bs]. simpl in *. f_equal.
  apply list_insert_id. rewrite Hb. f_equal. by destruct b.
Qed.

Lemma put_cell (p : DataPool) (i : Z) (v : any) (now : Z) (b : bucket) :
  0 <= i -> buckets p !! Z.to_nat i = Some b -> guard b = unlocked ->
  put i v now p
  = Some (now, mkDataPool (<[Z.to_nat i := written b v now]> (buckets p))).
Proof.
  intros Hi Hb Hg. pose proof (lookup_bounds _ _ _ Hi Hb) as Hr.
  apply out_of_range_false in Hr.
  unfold put. rewrite Hr.
  set (g1 := mkRWMutex 0 true).
  assert (Lock (guard b) = Some g1) as H1 by (by rewrite Hg).
  rewrite (bind_Some _ _ _ _ _ (on_guard_Some _ _ _ _ _ Hb H1)).
  pose proof (lookup_updated _ _ _ (set_guard g1 b) Hb) as Hb1.
  rewrite (bind_Some _ _ _ _ _ (modify_Some _ _ (set_value v) _ Hb1)).
  pose proof (lookup_updated _ _ _ (set_value v (set_guard g1 b)) Hb1) as Hb2.
  rewrite (bind_Some _ _ _ _ _ (modify_Some _ _ (set_timestamp now) _ Hb2)).
  pose proof (lookup_updated _ _ _
    (set_timestamp now (set_value v (set_guard g1 b))) Hb2) as Hb3.
  rewrite (bind_Some _ _ _ _ _ (cell_Some _ _ _ Hb3)).
  assert (Unlock (guard (set_timestamp now (set_value v (set_guard g1 b))))
          = Some unlocked) as H2 by done.
  rewrite (bind_Some _ _ _ _ _ (on_guard_Some _ _ _ _ _ Hb3 H2)).
  unfold ret. simpl. rewrite !list_insert_insert_eq.
  unfold written. by rewrite Hg.
Qed.

(** ** The name scan of [DataPool.Bucket] *)

Lemma scan_None (n : string) (i : nat) (bs : list bucket) :
  scan n i bs = None <-> n ∉ map name bs.
Proof.
  revert i. induction bs as [|b bs IH]; intros i; simpl.
  - split; [intros _; apply not_elem_of_nil | done].
  - rewrite not_elem_of_cons. destruct (String.eqb_spec (name b) n) as [E|E].
    + split; [done | intros [? _]; congruence].
    + rewrite IH. split; [intros; split; congruence | tauto].
Qed.

Lemma scan_Some (n : string) (i j : nat) (bs : list bucket) :
  scan n i bs = Some j ->
  (i <= j)%nat /\ exists b, bs !! (j - i)%nat = Some b /\ name b = n.
Proof.
  revert i. induction bs as [|b bs IH]; intros i; simpl; [done|].
  destruct (String.eqb_spec (name b) n) as [E|E].
  - intros [= <-]. split; [lia|]. exists b. by rewrite Nat.sub_diag.
  - intros H. apply IH in H as (Hle & b' & Hb' & Hn). split; [lia|].
    exists b'. split; [|done].
    replace (j - i)%nat with (S (j - S i)) by lia. done.
Qed.

(** A match is the first one: every earlier cell has another name. *)
Lemma scan_first (n : string) (i j : nat) (bs : list bucket) :
  scan n i bs = Some j ->
  forall k b, (k < j - i)%nat -> bs !! k = Some b -> name b <> n.
Proof.
  revert i. induction bs as [|b bs IH]; intros i; simpl; [done|].
  destruct (String.eqb_spec (name b) n) as [E|E].
  - intros [= <-] k b' Hk. lia.
  - intros H [|k] b' Hk; simpl.
    + by intros [= <-].
    + apply (IH _ H). apply scan_Some in H. lia.
Qed.

Lemma scan_app_hit (n : string) (i j : nat) (bs more : list bucket) :
  scan n i bs = Some j -> scan n i (bs ++ more) = Some j.
Proof.
  revert i. induction bs as [|b bs IH]; intros i; simpl; [done|].
  destruct (String.eqb (name b) n); [done | apply IH].
Qed.

Lemma scan_app_miss (n : string) (i : nat) (bs : list bucket) :
  scan n i bs = None ->
  scan n i (bs ++ [new_bucket n]) = Some (i + length bs)%nat.
Proof.
  revert i. induction bs as [|b bs IH]; intros i; simpl.
  - intros _. rewrite String.eqb_refl. f_equal. lia.
  - destruct (String.eqb (name b) n); [done|].
    intros H. rewrite (IH _ H). f_equal. lia.
Qed.

(** ** [DataPool.Bucket] *)

Lemma len_append (p : DataPool) (b : bucket) :
  len (mkDataPool (buckets p ++ [b])) = len p + 1.
Proof. unfold len. simpl. rewrite length_app. simpl. lia. Qed.

Lemma Bucket_found (n : string) (p : DataPool) (i : nat) :
  scan n 0 (buckets p) = Some i ->
  DataPool_Bucket n p = Some (mkBucket (Z.of_nat i), p).
Proof. intros H. unfold DataPool_Bucket. by rewrite H. Qed.

Lemma Bucket_created (n : string) (p : DataPool) :
  scan n 0 (buckets p) = None ->
  DataPool_Bucket n p
  = Some (mkBucket (len p), mkDataPool (buckets p ++ [new_bucket n])).
Proof.
  intros H. unfold DataPool_Bucket, append_new, ret. rewrite H.
  rewrite len_append. do 3 f_equal. lia.
Qed.

(** What a call of [DataPool.Bucket] returns and leaves behind: it always
    returns, the handle is in range and addresses a cell named [n], and the
    pool is the old one or the old one with one new cell at the end. *)
Lemma Bucket_spec (n : string) (p : DataPool) :
  exists h p',
    DataPool_Bucket n p = Some (h, p') /\
    0 <= id h < len p' /\
    (exists b, buckets p' !! Z.to_nat (id h) = Some b /\ name b = n) /\
    ((n ∈ names p /\ p' = p) \/
     ((n ∉ names p) /\ id h = len p /\
      p' = mkDataPool (buckets p ++ [new_bucket n]))).
Proof.
  destruct (scan n 0 (buckets p)) as [i|] eqn:E.
  - exists (mkBucket (Z.of_nat i)), p. split; [by apply Bucket_found|].
    pose proof (scan_Some _ _ _ _ E) as (_ & b & Hb & Hn).
    rewrite Nat.sub_0_r in Hb. simpl. rewrite Nat2Z.id.
    split; [|split].
    + apply lookup_lt_Some in Hb. unfold len. lia.
    + by exists b.
    + left. split; [|done]. unfold names. rewrite <- Hn.
      apply list_elem_of_fmap_2. by eapply list_elem_of_lookup_2.
  - exists (mkBucket (len p)), (mkDataPool (buckets p ++ [new_bucket n])).
    split; [by apply Bucket_created|]. simpl. rewrite len_append.
    pose proof (len_nonneg p). split; [lia|]. split.
    + exists (new_bucket n). split; [|done]. unfold len. rewrite Nat2Z.id.
      rewrite lookup_app_r by lia. by rewrite Nat.sub_diag.
    + right. by apply scan_None in E.
Qed.

(** ** Writing one slot *)

Lemma names_insert (p : DataPool) (k : nat) (b b' : bucket) :
  buckets p !! k = Some b -> name b' = name b ->
  names (mkDataPool (<[k := b']> (buckets p))) = names p.
Proof.
  intros Hb Hn. unfold names. simpl. rewrite list_fmap_insert.
  apply list_insert_id. rewrite list_lookup_fmap, Hb. simpl. congruence.
Qed.

Lemma quiescent_insert (p : DataPool) (k : nat) (b' : bucket) :
  quiescent p -> guard b' = unlocked ->
  quiescent (mkDataPool (<[k := b']> (buckets p))).
Proof. intros Hq Hg. unfold quiescent. simpl. by apply Forall_insert. Qed.

Lemma quiescent_lookup (p : DataPool) (k : nat) (b : bucket) :
  quiescent p -> buckets p !! k = Some b -> guard b = unlocked.
Proof. intros Hq Hb. by eapply (proj1 (Forall_lookup _ _) Hq). Qed.

Lemma quiescent_append (p : DataPool) (n : string) :
  quiescent p -> quiescent (mkDataPool (buckets p ++ [new_bucket n])).
Proof.
  intros Hq. unfold quiescent. simpl. apply Forall_app. split; [done|].
  by repeat constructor.
Qed.

(** ** Every call returns between calls *)

Lemma get_returns (p : DataPool) (i ts : Z) :
  quiescent p -> exists r, get i ts p = Some (r, p).
Proof.
  intros Hq. destruct (out_of_range p i) eqn:E.
  - exists (None, ts, false). unfold get. by rewrite E.
  - apply out_of_range_false in E. destruct (in_range_lookup _ _ E) as [b Hb].
    eexists. apply (get_cell _ _ _ b); [lia | done |].
    by rewrite (quiescent_lookup _ _ _ Hq Hb).
Qed.

Lemma put_out_of_range (p : DataPool) (i : Z) (v : any) (now : Z) :
  out_of_range p i = true -> put i v now p = Some (0, p).
Proof. intros E. unfold put. by rewrite E. Qed.

Lemma put_in_range (p : DataPool) (i : Z) (v : any) (now : Z) :
  quiescent p -> 0 <= i < len p ->
  exists b, buckets p !! Z.to_nat i = Some b /\
    put i v now p
    = Some (now, mkDataPool (<[Z.to_nat i := written b v now]> (buckets p))).
Proof.
  intros Hq E. destruct (in_range_lookup _ _ E) as [b Hb]. exists b.
  split; [done|]. apply put_cell; [lia | done |].
  by apply (quiescent_lookup _ _ _ Hq Hb).
Qed.

(** ** One call *)

Lemma keeps_cells_refl (p : DataPool) : keeps_cells p p.
Proof. intros k b Hb. by exists b. Qed.

Lemma keeps_cells_trans (p q r : DataPool) :
  keeps_cells p q -> keeps_cells q r -> keeps_cells p r.
Proof.
  intros H1 H2 k b Hb. destruct (H1 _ _ Hb) as (b1 & Hb1 & Hn1).
  destruct (H2 _ _ Hb1) as (b2 & Hb2 & Hn2). exists b2. split; congruence.
Qed.

Lemma keeps_cells_len (p p' : DataPool) : keeps_cells p p' -> len p <= len p'.
Proof.
  intros H. unfold len. apply Nat2Z.inj_le.
  destruct (decide (length (buckets p) <= length (buckets p'))%nat) as [|Hgt];
    [done|]. exfalso.
  destruct (lookup_lt_is_Some_2 (buckets p) (length (buckets p'))) as [b Hb];
    [lia|].
  destruct (H _ _ Hb) as (b' & Hb' & _). apply lookup_lt_Some in Hb'. lia.
Qed.

Lemma step_effect_same (o : op) (p : DataPool) :
  quiescent p -> step_effect o p p.
Proof.
  intros Hq. repeat split; try done.
  - apply keeps_cells_refl.
  - destruct o; auto.
Qed.

Lemma step_effect_append (n : string) (p : DataPool) :
  quiescent p -> n ∉ names p ->
  step_effect (OpBucket n) p (mkDataPool (buckets p ++ [new_bucket n])).
Proof.
  intros Hq Hn. split; [by apply quiescent_append|]. split; [|split; [|split; [|split]]].
  - intros Hnd. unfold names. simpl. rewrite map_app. simpl.
    apply NoDup_app. split; [done|]. split; [|apply NoDup_singleton].
    intros x Hx Hx'. apply list_elem_of_singleton in Hx'. by subst.
  - intros k b Hb. exists b. split; [|done]. simpl. by apply lookup_app_l_Some.
  - intros k b _ Hb. simpl. by apply lookup_app_l_Some.
  - intros k _. unfold untouched. simpl.
    destruct (buckets p !! k) as [b|] eqn:E.
    + by rewrite (lookup_app_l_Some _ _ _ _ E).
    + intros _. apply lookup_ge_None in E. rewrite lookup_app_r by done.
      destruct (k - length (buckets p))%nat as [|m]; simpl; [done|].
      by destruct m.
  - by right.
Qed.

Lemma step_effect_put (p : DataPool) (i : Z) (v : any) (now : Z) (b : bucket) :
  quiescent p -> 0 <= i -> buckets p !! Z.to_nat i = Some b ->
  step_effect (OpPut i v now) p
    (mkDataPool (<[Z.to_nat i := written b v now]> (buckets p))).
Proof.
  intros Hq Hi Hb.
  assert (forall k, (i =? Z.of_nat k) = false -> Z.to_nat i <> k) as Hne
    by (intros k Hk; lia).
  split; [|split; [|split; [|split; [|split]]]].
  - apply quiescent_insert; [done|]. simpl. by eapply quiescent_lookup.
  - by rewrite (names_insert _ _ b).
  - intros k c Hc. simpl. destruct (decide (Z.to_nat i = k)) as [<-|Hk].
    + exists (written b v now). split.
      * apply list_lookup_insert_eq. by eapply lookup_lt_Some.
      * simpl. congruence.
    + exists c. by rewrite list_lookup_insert_ne.
  - intros k c Hk Hc. simpl in *. rewrite list_lookup_insert_ne; auto.
  - intros k Hk. unfold untouched. simpl in *.
    rewrite list_lookup_insert_ne; auto.
  - unfold len. simpl. by rewrite length_insert.
Qed.

Lemma step_spec (o : op) (p : DataPool) :
  quiescent p -> exists a p', step o p = Some (a, p') /\ step_effect o p p'.
Proof.
  intros Hq. destruct o as [n | i ts | i v now]; simpl.
  - destruct (Bucket_spec n p) as (h & p' & Hrun & _ & _ & Hcases).
    exists (ABucket h), p'. rewrite (bind_Some _ _ _ _ _ Hrun).
    split; [done|]. destruct Hcases as [[_ ->] | (Hn & _ & ->)].
    + by apply step_effect_same.
    + by apply step_effect_append.
  - destruct (get_returns p i ts Hq) as [r Hr].
    exists (AGet r), p. rewrite (bind_Some _ _ _ _ _ Hr).
    split; [done|]. by apply step_effect_same.
  - destruct (out_of_range p i) eqn:E.
    + exists (APut 0), p.
      rewrite (bind_Some _ _ _ _ _ (put_out_of_range _ _ v now E)).
      split; [done|]. by apply step_effect_same.
    + apply out_of_range_false in E.
      destruct (put_in_range p i v now Hq E) as (b & Hb & Hput).
      eexists (APut now), _. rewrite (bind_Some _ _ _ _ _ Hput).
      split; [done|]. apply step_effect_put; [done | lia | done].
Qed.

(** ** Sequences of calls *)

Lemma steps_spec (os : list op) (p : DataPool) :
  quiescent p -> exists rs p', steps os p = Some (rs, p') /\ run_effect os p p'.
Proof.
  revert p. induction os as [|o os IH]; intros p Hq.
  - exists [], p. split; [done|]. repeat split; try done.
    apply keeps_cells_refl.
  - destruct (step_spec o p Hq) as (a & p1 & Hstep & Hq1 & Hnd1 & Hk1 & Hf1 & Hu1 & _).
    destruct (IH p1 Hq1) as (rs & p2 & Hrun & Hq2 & Hnd2 & Hk2 & Hf2 & Hu2).
    exists (a :: rs), p2. split.
    + simpl. rewrite (bind_Some _ _ _ _ _ Hstep), (bind_Some _ _ _ _ _ Hrun).
      done.
    + split; [done|]. split; [auto|]. split; [by eapply keeps_cells_trans|].
      split.
      * intros k b Hk Hb. simpl in Hk. apply orb_false_iff in Hk as [Ho Hos].
        auto.
      * intros k Hk Hb. simpl in Hk. apply orb_false_iff in Hk as [Ho Hos].
        auto.
Qed.

Lemma untouched_NewDataPool (k : nat) : untouched k NewDataPool.
Proof. unfold untouched. by destruct k. Qed.

Lemma quiescent_NewDataPool : quiescent NewDataPool.
Proof. constructor. Qed.

Lemma pool_inv_NewDataPool : pool_inv NewDataPool.
Proof. split; [apply NoDup_nil_2 | apply quiescent_NewDataPool]. Qed.

(** ** Reading and writing a cell *)

(** C1: for an identifier in range, [get] returns the cell's current value
    and current timestamp, leaves the pool as it found it, and reports fresh
    exactly when the cell's timestamp is strictly greater than the compare
    timestamp. *)
Theorem get_reads_cell_and_freshness (p : DataPool) (i ts : Z) :
  quiescent p -> 0 <= i < len p ->
  exists b fresh,
    buckets p !! Z.to_nat i = Some b /\
    get i ts p = Some ((value b, timestamp b, fresh), p) /\
    (fresh = true <-> ts < timestamp b).
Proof.
  intros Hq Hi. destruct (in_range_lookup _ _ Hi) as [b Hb].
  exists b, (timestamp b >? ts). split; [done|]. split.
  - apply get_cell; [lia | done |]. by rewrite (quiescent_lookup _ _ _ Hq Hb).
  - lia.
Qed.

(** C6: for an identifier out of range, [get] returns no value, the compare
    timestamp it was given and not-fresh, [put] returns 0, and both leave
    the pool, its cells and its cell count as they were. *)
Theorem out_of_range_is_noop (p : DataPool) (i t : Z) (v : any) (now : Z) :
  i < 0 \/ len p <= i ->
  get i t p = Some ((None, t, false), p) /\ put i v now p = Some (0, p).
Proof.
  intros Hi. apply out_of_range_true in Hi. split.
  - unfold get. by rewrite Hi.
  - by apply put_out_of_range.
Qed.

(** C10: [put] on a valid identifier replaces the value and the timestamp
    of that cell and nothing else: the cell count, the cell's name and
    mutex, and every other slot are as before; [get] on any identifier
    leaves the whole pool as it was. *)
Theorem put_writes_one_cell_get_writes_none
    (p : DataPool) (i : Z) (v : any) (now : Z) :
  quiescent p -> 0 <= i < len p ->
  exists b p',
    buckets p !! Z.to_nat i = Some b /\
    put i v now p = Some (now, p') /\
    len p' = len p /\
    buckets p' !! Z.to_nat i = Some (mkbucket (name b) v now (guard b)) /\
    (forall k, k <> Z.to_nat i -> buckets p' !! k = buckets p !! k) /\
    (forall j ts, exists r, get j ts p = Some (r, p)).
Proof.
  intros Hq Hi. destruct (put_in_range p i v now Hq Hi) as (b & Hb & Hput).
  exists b, (mkDataPool (<[Z.to_nat i := written b v now]> (buckets p))).
  split; [done|]. split; [done|]. split; [|split; [|split]].
  - unfold len. simpl. by rewrite length_insert.
  - by apply (lookup_updated p i b).
  - intros k Hk. simpl. by rewrite list_lookup_insert_ne.
  - intros j ts. by apply get_returns.
Qed.

(** ** Resolving a name *)

(** C7: resolving the same name twice in a row gives two handles with the
    same identifier, and the second call leaves the pool, and so its cell
    count, unchanged. *)
Theorem Bucket_twice_same_handle (n : string) (p : DataPool) :
  exists h1 h2 p1 p2,
    DataPool_Bucket n p = Some (h1, p1) /\
    DataPool_Bucket n p1 = Some (h2, p2) /\
    id h1 = id h2 /\ p2 = p1 /\ len p2 = len p1.
Proof.
  destruct (scan n 0 (buckets p)) as [i|] eqn:E.
  - exists (mkBucket (Z.of_nat i)), (mkBucket (Z.of_nat i)), p, p.
    rewrite (Bucket_found _ _ _ E). done.
  - set (p1 := mkDataPool (buckets p ++ [new_bucket n])).
    exists (mkBucket (len p)), (mkBucket (len p)), p1, p1.
    split; [by apply Bucket_created|]. split; [|done].
    rewrite (Bucket_found n p1 (length (buckets p))); [done|].
    by apply (scan_app_miss n 0 (buckets p)).
Qed.

(** ** A cell between two writes *)

(** Calls that do not write cell [i] all return and leave it as it is. *)
Lemma cell_survives (os : list op) (p : DataPool) (i : Z) (c : bucket) :
  quiescent p -> 0 <= i -> buckets p !! Z.to_nat i = Some c ->
  existsb (puts_to i) os = false ->
  exists rs p',
    steps os p = Some (rs, p') /\ quiescent p' /\
    buckets p' !! Z.to_nat i = Some c.
Proof.
  intros Hq Hi Hc Hos.
  destruct (steps_spec os p Hq) as (rs & p' & Hrun & Hq' & _ & _ & Hf & _).
  exists rs, p'. split; [done|]. split; [done|].
  apply Hf; [|done]. by rewrite Z2Nat.id.
Qed.

Lemma put_then_cell (p : DataPool) (i : Z) (v : any) (now : Z) :
  quiescent p -> 0 <= i < len p ->
  exists c p',
    put i v now p = Some (now, p') /\ quiescent p' /\ len p' = len p /\
    buckets p' !! Z.to_nat i = Some c /\
    value c = v /\ timestamp c = now /\ guard c = unlocked.
Proof.
  intros Hq Hi. destruct (put_in_range p i v now Hq Hi) as (b & Hb & Hput).
  pose proof (step_effect_put p i v now b Hq (proj1 Hi) Hb)
    as (Hq' & _ & _ & _ & _ & Hlen).
  exists (written b v now),
    (mkDataPool (<[Z.to_nat i := written b v now]> (buckets p))).
  split; [exact Hput|]. split; [exact Hq'|]. split; [exact Hlen|].
  split; [by apply (lookup_updated p i b)|].
  split; [done|]. split; [done|]. exact (quiescent_lookup _ _ _ Hq Hb).
Qed.

(** After a [put], and calls that do not write the cell again, [get]
    returns what was put and the clock reading of the [put]. *)
Lemma get_after_put
    (p : DataPool) (i : Z) (v : any) (now : Z) (os : list op) :
  quiescent p -> 0 <= i < len p ->
  existsb (puts_to i) os = false ->
  exists p1 rs p2,
    put i v now p = Some (now, p1) /\
    steps os p1 = Some (rs, p2) /\
    forall ts, get i ts p2 = Some ((v, now, now >? ts), p2).
Proof.
  intros Hq Hi Hos.
  destruct (put_then_cell p i v now Hq Hi)
    as (c & p1 & Hput & Hq1 & _ & Hc & Hv & Ht & Hg).
  destruct (cell_survives os p1 i c Hq1 (proj1 Hi) Hc Hos)
    as (rs & p2 & Hrun & Hq2 & Hc2).
  exists p1, rs, p2. split; [done|]. split; [done|]. intros ts.
  assert (writer (guard c) = false) as Hw by (by rewrite Hg).
  by rewrite (get_cell p2 i ts c (proj1 Hi) Hc2 Hw), Hv, Ht.
Qed.

(** C2: a [Put] of [v] through a handle with a valid identifier returns
    the clock reading [t1] it stamped the cell with; as long as no other
    write to that cell intervenes, [Get (t1 - 1)] returns [(v, t1, true)]
    and [Get (t1 + 1)] returns [(v, t1, false)]. *)
Theorem Put_then_Get_round_trip
    (p : DataPool) (h : Bucket) (v : any) (t1 : Z) (os : list op) :
  quiescent p -> 0 <= id h < len p ->
  existsb (puts_to (id h)) os = false ->
  exists p1 rs p2,
    Put h v t1 p = Some (t1, p1) /\
    steps os p1 = Some (rs, p2) /\
    Get h (t1 - 1) p2 = Some ((v, t1, true), p2) /\
    Get h (t1 + 1) p2 = Some ((v, t1, false), p2).
Proof.
  intros Hq Hi Hos. unfold Put, Get.
  destruct (get_after_put p (id h) v t1 os Hq Hi Hos)
    as (p1 & rs & p2 & Hput & Hrun & Hget).
  exists p1, rs, p2. split; [done|]. split; [done|].
  rewrite !Hget. split; do 3 f_equal; lia.
Qed.

(** The caller's [t - 1] and [t + 1] on [int64] are exact away from the
    two ends of the range, and wrap around at the ends. *)
Lemma int64_neighbours (t : Z) :
  int64_min < t < int64_max ->
  int64_sub t 1 = t - 1 /\ int64_add t 1 = t + 1 /\
  is_int64 (t - 1) /\ is_int64 (t + 1).
Proof.
  unfold is_int64, int64_min, int64_max, int64_sub, int64_add, wrap64.
  intros Ht. split; [|split].
  - rewrite Z.mod_small; lia.
  - rewrite Z.mod_small; lia.
  - lia.
Qed.

Lemma int64_wraps_at_the_ends :
  int64_add int64_max 1 = int64_min /\ int64_sub int64_min 1 = int64_max.
Proof. by vm_compute. Qed.

(** The round trip as a Go caller writes it, with [timestamp - 1] and
    [timestamp + 1] computed on [int64]. *)
Lemma Put_then_Get_int64 (p : DataPool) (h : Bucket) (v : any) (t1 : Z) :
  quiescent p -> 0 <= id h < len p -> int64_min < t1 < int64_max ->
  exists p1,
    Put h v t1 p = Some (t1, p1) /\
    Get h (int64_sub t1 1) p1 = Some ((v, t1, true), p1) /\
    Get h (int64_add t1 1) p1 = Some ((v, t1, false), p1).
Proof.
  intros Hq Hi Ht. unfold Put, Get.
  destruct (get_after_put p (id h) v t1 [] Hq Hi eq_refl)
    as (p1 & rs & p2 & Hput & Hrun & Hget).
  injection Hrun as _ <-.
  destruct (int64_neighbours t1 Ht) as (-> & -> & _).
  exists p1. split; [done|].
  rewrite !Hget. split; do 3 f_equal; lia.
Qed.

(** The same cell, for any compare timestamp: fresh exactly when the
    compare timestamp is negative. *)
Lemma never_written_cell_any_compare (os : list op) (i ts : Z) :
  existsb (puts_to i) os = false ->
  exists rs p,
    steps os NewDataPool = Some (rs, p) /\
    (0 <= i < len p -> get i ts p = Some ((None, 0, 0 >? ts), p)).
Proof.
  intros Hos.
  destruct (steps_spec os NewDataPool quiescent_NewDataPool)
    as (rs & p & Hrun & Hq & _ & _ & _ & Hu).
  exists rs, p. split; [done|]. intros Hi.
  destruct (in_range_lookup _ _ Hi) as [b Hb].
  specialize (Hu (Z.to_nat i)). rewrite Z2Nat.id in Hu by lia.
  specialize (Hu Hos (untouched_NewDataPool _)).
  unfold untouched in Hu. rewrite Hb in Hu. destruct Hu as [Hv Ht].
  rewrite (get_cell p i ts b); [|lia|done|].
  - by rewrite Hv, Ht.
  - by rewrite (quiescent_lookup _ _ _ Hq Hb).
Qed.

(** C4 as amended: a cell on which no [put] has ever occurred reads as no
    value with timestamp 0, and not fresh for every compare timestamp that
    is not negative. *)
Theorem never_written_cell_reads_empty (os : list op) (i ts : Z) :
  existsb (puts_to i) os = false -> 0 <= ts ->
  exists rs p,
    steps os NewDataPool = Some (rs, p) /\
    (0 <= i < len p -> get i ts p = Some ((None, 0, false), p)).
Proof.
  intros Hos Hts.
  destruct (never_written_cell_any_compare os i ts Hos) as (rs & p & Hrun & Hget).
  exists rs, p. split; [done|]. intros Hi. rewrite (Hget Hi).
  do 3 f_equal. lia.
Qed.

(** C5 as amended: each [put] returns the clock reading it took, so two
    [put]s on one cell, the second after the first, return strictly
    increasing timestamps when the second clock reading is strictly later
    than the first; every later [get], as long as no further write to the
    cell intervenes, sees the value and the timestamp of the second. *)
Theorem sequential_puts_follow_the_clock
    (p : DataPool) (i : Z) (v1 v2 : any) (now1 now2 : Z)
    (between after : list op) :
  quiescent p -> 0 <= i < len p -> now1 < now2 ->
  existsb (puts_to i) after = false ->
  exists t1 p1 rs1 p1' t2 p2 rs2 p3,
    put i v1 now1 p = Some (t1, p1) /\
    steps between p1 = Some (rs1, p1') /\
    put i v2 now2 p1' = Some (t2, p2) /\
    steps after p2 = Some (rs2, p3) /\
    t1 = now1 /\ t2 = now2 /\ t1 < t2 /\
    forall ts, get i ts p3 = Some ((v2, t2, t2 >? ts), p3).
Proof.
  intros Hq Hi Hlt Hafter.
  destruct (put_then_cell p i v1 now1 Hq Hi)
    as (c1 & p1 & Hput1 & Hq1 & Hlen1 & _).
  destruct (steps_spec between p1 Hq1)
    as (rs1 & p1' & Hrun1 & Hq1' & _ & Hk & _).
  assert (0 <= i < len p1') as Hi'.
  { apply keeps_cells_len in Hk. lia. }
  destruct (put_then_cell p1' i v2 now2 Hq1' Hi')
    as (c2 & p2 & Hput2 & Hq2 & _ & Hc2 & Hv & Ht & Hg).
  destruct (cell_survives after p2 i c2 Hq2 (proj1 Hi) Hc2 Hafter)
    as (rs2 & p3 & Hrun2 & Hq3 & Hc3).
  exists now1, p1, rs1, p1', now2, p2, rs2, p3.
  repeat (split; [done|]). intros ts.
  rewrite (get_cell p3 i ts c2 (proj1 Hi) Hc3); [by rewrite Hv, Ht|].
  by rewrite Hg.
Qed.

(** ** The pool invariant *)

(** C8: every call returns and preserves the invariant of the pool: the
    names stay unique, every cell keeps its slot and its name, the cell
    count does not decrease; [DataPool.Bucket] leaves the pool alone or
    appends one cell at the end, [get] changes nothing and [put] keeps the
    cell count. *)
Theorem calls_preserve_pool_invariant (o : op) (p : DataPool) :
  pool_inv p ->
  exists a p',
    step o p = Some (a, p') /\
    pool_inv p' /\
    (forall k b, buckets p !! k = Some b ->
       exists b', buckets p' !! k = Some b' /\ name b' = name b) /\
    len p <= len p' /\
    match o with
    | OpBucket n => p' = p \/ p' = mkDataPool (buckets p ++ [new_bucket n])
    | OpGet _ _ => p' = p
    | OpPut _ _ _ => len p' = len p
    end.
Proof.
  intros [Hnd Hq].
  destruct (step_spec o p Hq) as (a & p' & Hstep & Hq' & Hnd' & Hk & _ & _ & Ho).
  exists a, p'. split; [done|]. split; [split; auto|].
  split; [exact Hk|]. split; [by apply keeps_cells_len | done].
Qed.

(** Every pool that calls made one after the other can produce from a new
    pool satisfies the invariant. *)
Lemma reachable_pool_inv (os : list op) :
  exists rs p, steps os NewDataPool = Some (rs, p) /\ pool_inv p.
Proof.
  destruct (steps_spec os NewDataPool quiescent_NewDataPool)
    as (rs & p & Hrun & Hq & Hnd & _).
  exists rs, p. split; [done|]. split; [|done].
  apply Hnd, pool_inv_NewDataPool.
Qed.

(** ** Handles *)

(** C9: the handle [DataPool.Bucket] returns is in range for the pool it
    comes from, and stays in range whatever calls follow: the bounds test
    of [get] and [put] is false for it, it still addresses a cell of the
    requested name, [Get] returns that cell's content and [Put] writes
    it. *)
Theorem handle_never_out_of_range (n : string) (p : DataPool) (os : list op) :
  quiescent p ->
  exists h p1 rs p2 b,
    DataPool_Bucket n p = Some (h, p1) /\
    0 <= id h < len p1 /\
    steps os p1 = Some (rs, p2) /\
    out_of_range p2 (id h) = false /\
    buckets p2 !! Z.to_nat (id h) = Some b /\ name b = n /\
    (forall ts,
       Get h ts p2 = Some ((value b, timestamp b, timestamp b >? ts), p2)) /\
    (forall v now, exists p3,
       Put h v now p2 = Some (now, p3) /\
       buckets p3 !! Z.to_nat (id h) = Some (mkbucket n v now (guard b))).
Proof.
  intros Hq.
  destruct (step_spec (OpBucket n) p Hq) as (a & p1 & Hstep & Hq1 & _).
  destruct (Bucket_spec n p) as (h & p1' & Hb & Hi & (b1 & Hb1 & Hn1) & _).
  simpl in Hstep. rewrite (bind_Some _ _ _ _ _ Hb) in Hstep.
  injection Hstep as _ <-.
  destruct (steps_spec os p1' Hq1) as (rs & p2 & Hrun & Hq2 & _ & Hk & _).
  destruct (Hk _ _ Hb1) as (b & Hb2 & Hn2).
  pose proof (lookup_bounds _ _ _ (proj1 Hi) Hb2) as Hi2.
  exists h, p1', rs, p2, b. repeat (split; [done|]).
  split; [by apply out_of_range_false|]. split; [done|].
  split; [congruence|]. split.
  - intros ts. apply get_cell; [lia | done |].
    by rewrite (quiescent_lookup _ _ _ Hq2 Hb2).
  - intros v now. eexists. split.
    + apply (put_cell p2 (id h) v now b); [lia | done |].
      exact (quiescent_lookup _ _ _ Hq2 Hb2).
    + rewrite (lookup_updated p2 (id h) b _ Hb2). unfold written.
      do 2 f_equal. congruence.
Qed.

(** ** Concurrent callers of [DataPool.Bucket] *)

(** A goroutine that no other goroutine interrupts does what the
    sequential function does. *)
Lemma goroutine_alone (n : string) (p : DataPool) :
  exists h p',
    DataPool_Bucket n p = Some (h, p') /\
    (schedule [0%nat] [Entered n] p = Some ([Returned h], p') \/
     schedule [0; 0]%nat [Entered n] p = Some ([Returned h], p')).
Proof.
  unfold DataPool_Bucket. simpl. unfold bind, advance.
  destruct (scan n 0 (buckets p)) as [i|] eqn:E.
  - eexists _, _. split; [done|]. by left.
  - eexists _, _. split; [done|]. right. simpl. unfold bind. done.
Qed.

(** Two callers with the same new name, one after the other: one cell, and
    both handles address it. *)
Lemma callers_in_turn (n : string) (p : DataPool) :
  (n ∉ names p) ->
  schedule [0; 0; 1]%nat [Entered n; Entered n] p
  = Some ([Returned (mkBucket (len p)); Returned (mkBucket (len p))],
          mkDataPool (buckets p ++ [new_bucket n])).
Proof.
  intros Hn. apply (scan_None n 0) in Hn.
  simpl. unfold bind, advance. rewrite Hn. simpl. unfold bind, advance, append_new.
  simpl. rewrite (scan_app_miss n 0 _ Hn). unfold ret.
  rewrite len_append. simpl. unfold len. do 4 f_equal; f_equal; lia.
Qed.

(** Two callers with the same new name, both through the loop before
    either appends: each appends a cell of its own. *)
Lemma callers_interleaved (n : string) (p : DataPool) :
  (n ∉ names p) ->
  schedule [0; 1; 0; 1]%nat [Entered n; Entered n] p
  = Some ([Returned (mkBucket (len p)); Returned (mkBucket (len p + 1))],
          mkDataPool ((buckets p ++ [new_bucket n]) ++ [new_bucket n])).
Proof.
  intros Hn. apply (scan_None n 0) in Hn.
  simpl. unfold bind, advance. rewrite Hn. simpl. rewrite Hn. simpl.
  unfold bind, advance, append_new, ret. simpl.
  unfold len. simpl. rewrite !length_app. simpl.
  replace (Z.of_nat (length (buckets p) + 1) - 1) with (Z.of_nat (length (buckets p))) by lia.
  replace (Z.of_nat (length (buckets p) + 1 + 1) - 1)
    with (Z.of_nat (length (buckets p)) + 1) by lia.
  done.
Qed.

(** C3, the schedule on which the code breaks it: on a new pool two
    goroutines call [DataPool.Bucket] with the name x, and both finish the
    loop before either appends.  Two cells named x exist afterwards, the
    cell count has grown by two, and the two handles address different
    cells. *)
Theorem concurrent_Bucket_creates_two_cells :
  exists h1 h2 p,
    schedule [0; 1; 0; 1]%nat [Entered "x"; Entered "x"] NewDataPool
    = Some ([Returned h1; Returned h2], p) /\
    len p = len NewDataPool + 2 /\
    names p = ["x"; "x"]%string /\
    count_name "x" p = 2%nat /\
    id h1 = 0 /\ id h2 = 1.
Proof.
  eexists _, _, _. split.
  - apply callers_interleaved. apply not_elem_of_nil.
  - simpl. repeat split.
Qed.

(** ** Names and identifiers *)

Lemma Bucket_effect (n : string) (p : DataPool) :
  quiescent p ->
  exists h p',
    DataPool_Bucket n p = Some (h, p') /\
    0 <= id h < len p' /\
    (exists b, buckets p' !! Z.to_nat (id h) = Some b /\ name b = n) /\
    scan n 0 (buckets p') = Some (Z.to_nat (id h)) /\
    quiescent p' /\ keeps_cells p p'.
Proof.
  intros Hq.
  destruct (Bucket_spec n p) as (h & p' & Hrun & Hi & Hb & Hcases).
  exists h, p'. split; [done|]. split; [done|]. split; [done|].
  unfold DataPool_Bucket in Hrun.
  destruct Hcases as [[Hin ->] | (Hn & Hid & ->)].
  - split; [|split; [done | apply keeps_cells_refl]].
    destruct (scan n 0 (buckets p)) as [i|] eqn:E.
    + injection Hrun as <-. simpl. by rewrite Nat2Z.id.
    + by apply scan_None in E.
  - split; [|split; [by apply quiescent_append|]].
    + simpl. rewrite Hid. unfold len. rewrite Nat2Z.id.
      apply (scan_None n 0) in Hn. by apply (scan_app_miss n 0).
    + intros k b Hk. exists b. simpl. split; [|done].
      by apply lookup_app_l_Some.
Qed.

(** The loop finds a name where it found it before, in any list that still
    has the old cells, under their names, in their slots. *)
Lemma scan_keeps (n : string) (bs bs' : list bucket) (i j : nat) :
  (forall k b, bs !! k = Some b ->
     exists b', bs' !! k = Some b' /\ name b' = name b) ->
  scan n i bs = Some j -> scan n i bs' = Some j.
Proof.
  revert bs' i. induction bs as [|b bs IH]; intros bs' i Hk; simpl; [done|].
  destruct (Hk 0%nat b eq_refl) as (b' & Hb' & Hn).
  destruct bs' as [|c bs']; [done|]. injection Hb' as ->. simpl. rewrite Hn.
  destruct (String.eqb (name b) n); [done|].
  apply IH. intros k d Hd. apply (Hk (S k) d Hd).
Qed.

(** X1: two different names never resolve to the same identifier, whatever
    calls are made between the two resolutions. *)
Theorem different_names_different_identifiers
    (n1 n2 : string) (p : DataPool) (os : list op) :
  quiescent p -> n1 <> n2 ->
  exists h1 p1 rs p2 h2 p3,
    DataPool_Bucket n1 p = Some (h1, p1) /\
    steps os p1 = Some (rs, p2) /\
    DataPool_Bucket n2 p2 = Some (h2, p3) /\
    id h1 <> id h2.
Proof.
  intros Hq Hne.
  destruct (Bucket_effect n1 p Hq)
    as (h1 & p1 & Hr1 & Hi1 & (b1 & Hb1 & Hn1) & _ & Hq1 & _).
  destruct (steps_spec os p1 Hq1) as (rs & p2 & Hrun & Hq2 & _ & Hk12 & _).
  destruct (Bucket_effect n2 p2 Hq2)
    as (h2 & p3 & Hr2 & Hi2 & (b2 & Hb2 & Hn2) & _ & _ & Hk23).
  exists h1, p1, rs, p2, h2, p3. repeat (split; [done|]).
  intros Heq.
  destruct (keeps_cells_trans _ _ _ Hk12 Hk23 _ _ Hb1) as (c & Hc & Hnc).
  rewrite Heq, Hb2 in Hc. injection Hc as <-. congruence.
Qed.

(** X2: a name keeps its identifier: whatever calls follow its first
    resolution, resolving it again returns the same handle and leaves the
    pool as it is. *)
Theorem name_keeps_its_identifier (n : string) (p : DataPool) (os : list op) :
  quiescent p ->
  exists h p1 rs p2,
    DataPool_Bucket n p = Some (h, p1) /\
    steps os p1 = Some (rs, p2) /\
    DataPool_Bucket n p2 = Some (h, p2).
Proof.
  intros Hq.
  destruct (Bucket_effect n p Hq)
    as (h & p1 & Hr1 & Hi1 & _ & Hscan & Hq1 & _).
  destruct (steps_spec os p1 Hq1) as (rs & p2 & Hrun & _ & _ & Hk & _).
  exists h, p1, rs, p2. split; [done|]. split; [done|].
  rewrite (Bucket_found n p2 (Z.to_nat (id h))).
  - rewrite Z2Nat.id by lia. by destruct h.
  - by apply (scan_keeps n (buckets p1)).
Qed.

Lemma keeps_cells_names (p p' : DataPool) :
  keeps_cells p p' -> len p' = len p -> names p' = names p.
Proof.
  intros Hk Hlen. unfold len in Hlen. unfold names. apply list_eq. intros k.
  rewrite !list_lookup_fmap.
  destruct (buckets p !! k) as [b|] eqn:E.
  - destruct (Hk _ _ E) as (b' & -> & Hn). simpl. by rewrite Hn.
  - apply lookup_ge_None in E. rewrite (proj2 (lookup_ge_None _ _)); [done|].
    lia.
Qed.

Lemma step_names (o : op) (p : DataPool) :
  quiescent p ->
  exists a p',
    step o p = Some (a, p') /\ quiescent p' /\
    (NoDup (names p) -> NoDup (names p')) /\
    forall n, n ∈ names p' <-> n ∈ names p \/ resolves o = Some n.
Proof.
  intros Hq.
  destruct (step_spec o p Hq)
    as (a & p' & Hstep & Hq' & Hnd & Hk & _ & _ & Ho).
  exists a, p'. split; [done|]. split; [done|]. split; [done|]. intros n.
  destruct o as [m | i ts | i v now]; simpl in *.
  - destruct (Bucket_spec m p) as (h & p'' & Hrun & _ & _ & Hcases).
    rewrite (bind_Some _ _ _ _ _ Hrun) in Hstep. injection Hstep as _ <-.
    destruct Hcases as [[Hin ->] | (Hnin & _ & ->)].
    + split; [tauto|]. intros [? | [= <-]]; done.
    + unfold names. simpl. rewrite map_app. simpl.
      rewrite elem_of_app, list_elem_of_singleton. split.
      * intros [? | ->]; [by left | by right].
      * intros [? | [= <-]]; [by left | by right].
  - subst p'. split; [tauto|]. by intros [?|?].
  - rewrite (keeps_cells_names _ _ Hk Ho). split; [tauto|]. by intros [?|?].
Qed.

Lemma steps_names (os : list op) (p : DataPool) :
  quiescent p ->
  exists rs p',
    steps os p = Some (rs, p') /\
    (NoDup (names p) -> NoDup (names p')) /\
    forall n, n ∈ names p' <-> n ∈ names p \/ n ∈ requested os.
Proof.
  revert p. induction os as [|o os IH]; intros p Hq.
  - exists [], p. split; [done|]. split; [done|]. intros n.
    unfold requested. simpl. rewrite elem_of_nil. tauto.
  - destruct (step_names o p Hq) as (a & p1 & Hstep & Hq1 & Hnd1 & Hn1).
    destruct (IH p1 Hq1) as (rs & p2 & Hrun & Hnd2 & Hn2).
    exists (a :: rs), p2. split; [|split; [auto|]].
    + simpl. by rewrite (bind_Some _ _ _ _ _ Hstep), (bind_Some _ _ _ _ _ Hrun).
    + intros n. rewrite Hn2, Hn1. unfold requested. simpl.
      destruct (resolves o) as [m|]; simpl.
      * rewrite elem_of_cons. split.
        -- intros [[? | [= ->]] | ?]; auto.
        -- intros [? | [-> | ?]]; auto.
      * split; [intros [[?|?]|?]; auto; done | intros [?|?]; auto].
Qed.

(** X3: after any sequence of calls on a new pool, the pool has exactly one
    cell for every name that was resolved and no other cell, so its cell
    count is the number of different names resolved. *)
Theorem one_cell_per_resolved_name (os : list op) :
  exists rs p,
    steps os NewDataPool = Some (rs, p) /\
    NoDup (names p) /\
    (forall n, n ∈ names p <-> n ∈ requested os) /\
    len p = Z.of_nat (length (remove_dups (requested os))).
Proof.
  destruct (steps_names os NewDataPool quiescent_NewDataPool)
    as (rs & p & Hrun & Hnd & Hn).
  specialize (Hnd (NoDup_nil_2)).
  assert (forall n, n ∈ names p <-> n ∈ requested os) as Hn'.
  { intros n. rewrite Hn. unfold names. simpl. rewrite elem_of_nil. tauto. }
  exists rs, p. split; [done|]. split; [done|]. split; [done|].
  unfold len. f_equal. transitivity (length (names p)).
  - unfold names. by rewrite length_map.
  - apply Permutation_length, NoDup_Permutation; [done | apply NoDup_remove_dups |].
    intros n. by rewrite Hn', elem_of_remove_dups.
Qed.

(** ** Cells do not interfere *)

(** X4: two [put]s to different cells commute: in either order each
    returns its own clock reading and the pool ends up the same. *)
Theorem puts_to_different_cells_commute
    (p : DataPool) (i j : Z) (v w : any) (s t : Z) :
  quiescent p -> 0 <= i < len p -> 0 <= j < len p -> i <> j ->
  exists p1 q1 p2,
    put i v s p = Some (s, p1) /\ put j w t p1 = Some (t, p2) /\
    put j w t p = Some (t, q1) /\ put i v s q1 = Some (s, p2).
Proof.
  intros Hq Hi Hj Hne.
  assert (Z.to_nat i <> Z.to_nat j) as Hne' by lia.
  destruct (in_range_lookup _ _ Hi) as [b Hb].
  destruct (in_range_lookup _ _ Hj) as [c Hc].
  pose proof (quiescent_lookup _ _ _ Hq Hb) as Hgb.
  pose proof (quiescent_lookup _ _ _ Hq Hc) as Hgc.
  eexists _, _, _. split; [|split; [|split]].
  - apply (put_cell p i v s b); [lia | done | done].
  - apply (put_cell _ j w t c); [lia | | done].
    simpl. by rewrite list_lookup_insert_ne.
  - apply (put_cell p j w t c); [lia | done | done].
  - rewrite (put_cell _ i v s b); [|lia| |done].
    + simpl. by rewrite list_insert_insert_ne.
    + simpl. by rewrite list_lookup_insert_ne.
Qed.

(** X5: a [put] to one identifier does not change what [get] returns for
    any other identifier, in range or not. *)
Theorem put_invisible_to_other_identifiers
    (p : DataPool) (i j : Z) (v : any) (now ts : Z) :
  quiescent p -> i <> j ->
  exists r t p',
    get j ts p = Some (r, p) /\
    put i v now p = Some (t, p') /\
    get j ts p' = Some (r, p').
Proof.
  intros Hq Hne.
  destruct (step_spec (OpPut i v now) p Hq)
    as (a & p' & Hstep & Hq' & _ & Hk & Hf & _ & Hlen).
  simpl in Hstep. unfold bind in Hstep.
  destruct (put i v now p) as [[t p'']|] eqn:Hput; [|done].
  injection Hstep as _ <-.
  destruct (out_of_range p j) eqn:E.
  - exists (None, ts, false), t, p''. split; [|split; [done|]].
    + unfold get. by rewrite E.
    + unfold get, out_of_range in *. simpl in Hlen. by rewrite Hlen, E.
  - apply out_of_range_false in E. destruct (in_range_lookup _ _ E) as [b Hb].
    exists (value b, timestamp b, timestamp b >? ts), t, p''.
    pose proof (quiescent_lookup _ _ _ Hq Hb) as Hg.
    split; [|split; [done|]].
    + apply get_cell; [lia | done | by rewrite Hg].
    + apply get_cell; [lia | | by rewrite Hg].
      apply Hf; [|done]. simpl. apply Z.eqb_neq. lia.
Qed.

(** ** Polling *)

(** X6: the timestamp [get] returns is the checkpoint for the next poll:
    handed back to [get] it reports not fresh with the same value and
    timestamp, for every identifier in range or not; once the cell is
    written at a later clock reading it reports fresh with the new value. *)
Theorem polling_with_the_returned_timestamp (p : DataPool) (i ts : Z) :
  quiescent p ->
  exists v t f,
    get i ts p = Some ((v, t, f), p) /\
    get i t p = Some ((v, t, false), p) /\
    forall w now, 0 <= i < len p -> t < now ->
      exists p', put i w now p = Some (now, p') /\
                 get i t p' = Some ((w, now, true), p').
Proof.
  intros Hq. destruct (out_of_range p i) eqn:E.
  - exists None, ts, false. unfold get. rewrite E. split; [done|].
    split; [done|]. intros w now Hi. apply out_of_range_true in E. lia.
  - apply out_of_range_false in E. destruct (in_range_lookup _ _ E) as [b Hb].
    pose proof (quiescent_lookup _ _ _ Hq Hb) as Hg.
    assert (writer (guard b) = false) as Hw by (by rewrite Hg).
    exists (value b), (timestamp b), (timestamp b >? ts).
    split; [by apply get_cell; [lia|..]|]. split.
    + rewrite (get_cell p i _ b); [|lia|done|done]. do 3 f_equal. lia.
    + intros w now _ Hlt.
      destruct (get_after_put p i w now [] Hq E eq_refl)
        as (p1 & rs & p2 & Hput & Hrun & Hget).
      injection Hrun as _ <-. exists p1. split; [done|].
      rewrite Hget. do 3 f_equal. lia.
Qed.

(** ** Reading back by name *)

(** X7: what is put through the handle of a name is what a handle resolved
    later for the same name reads, with the clock reading of the [put], as
    long as no other write to that cell intervenes. *)
Theorem value_read_back_by_name
    (n : string) (p : DataPool) (v : any) (now : Z) (os : list op) (ts : Z) :
  quiescent p ->
  exists h1 p1 p2 rs p3 h2,
    DataPool_Bucket n p = Some (h1, p1) /\
    Put h1 v now p1 = Some (now, p2) /\
    steps os p2 = Some (rs, p3) /\
    DataPool_Bucket n p3 = Some (h2, p3) /\
    (existsb (puts_to (id h1)) os = false ->
     Get h2 ts p3 = Some ((v, now, now >? ts), p3)).
Proof.
  intros Hq.
  destruct (Bucket_effect n p Hq)
    as (h & p1 & Hr1 & Hi & _ & Hscan & Hq1 & _).
  destruct (put_in_range p1 (id h) v now Hq1 Hi) as (b & Hb & Hput).
  pose proof (step_effect_put p1 (id h) v now b Hq1 (proj1 Hi) Hb)
    as (Hq2 & _ & Hk12 & _).
  set (p2 := mkDataPool (<[Z.to_nat (id h) := written b v now]> (buckets p1)))
    in *.
  pose proof (lookup_updated p1 (id h) b (written b v now) Hb) as Hc.
  destruct (steps_spec os p2 Hq2) as (rs & p3 & Hrun & Hq3 & _ & Hk23 & Hf & _).
  exists h, p1, p2, rs, p3, h. split; [done|]. split; [done|]. split; [done|].
  split.
  - rewrite (Bucket_found n p3 (Z.to_nat (id h))).
    + rewrite Z2Nat.id by lia. by destruct h.
    + apply (scan_keeps n (buckets p1)); [|done].
      apply (keeps_cells_trans _ _ _ Hk12 Hk23).
  - intros Hos. unfold Get.
    rewrite (get_cell p3 (id h) ts (written b v now)); [done | lia | |].
    + apply Hf; [|done]. by rewrite Z2Nat.id by lia.
    + simpl. by rewrite (quiescent_lookup _ _ _ Hq1 Hb).
Qed.

(** X11: [DataPool.Bucket] returns the first cell that carries the name:
    no cell in a lower slot has it, whether or not the names of the pool
    are unique. *)
Theorem Bucket_returns_first_cell_of_name (n : string) (p : DataPool) :
  exists h p' b,
    DataPool_Bucket n p = Some (h, p') /\
    buckets p' !! Z.to_nat (id h) = Some b /\ name b = n /\
    forall k c, (k < Z.to_nat (id h))%nat ->
      buckets p' !! k = Some c -> name c <> n.
Proof.
  destruct (Bucket_spec n p) as (h & p' & Hrun & Hi & (b & Hb & Hn) & Hcases).
  exists h, p', b. repeat (split; [done|]). intros k c Hk Hc.
  destruct Hcases as [[Hin ->] | (Hnin & Hid & ->)].
  - unfold DataPool_Bucket in Hrun.
    destruct (scan n 0 (buckets p)) as [i|] eqn:E.
    + injection Hrun as <-. simpl in Hk. rewrite Nat2Z.id in Hk.
      apply (scan_first n 0 i (buckets p) E k c); [lia | done].
    + by apply scan_None in E.
  - rewrite Hid in Hk. unfold len in Hk. rewrite Nat2Z.id in Hk.
    simpl in Hc. rewrite lookup_app_l in Hc by done.
    intros <-. apply Hnin. unfold names.
    apply list_elem_of_fmap_2. by eapply list_elem_of_lookup_2.
Qed.

(** ** Where the content of a cell comes from *)

Lemma provenance_more (pre more : list op) (p : DataPool) :
  provenance pre p -> provenance (pre ++ more) p.
Proof.
  intros H k b Hb. destruct (H k b Hb) as [?|?]; [by left|].
  right. apply elem_of_app. by left.
Qed.

Lemma step_provenance (o : op) (pre : list op) (p : DataPool) :
  quiescent p -> provenance pre p ->
  exists a p',
    step o p = Some (a, p') /\ quiescent p' /\ provenance (pre ++ [o]) p'.
Proof.
  intros Hq Hp.
  destruct (step_spec o p Hq) as (a & p' & Hstep & Hq' & _ & _ & _ & _ & Ho).
  exists a, p'. split; [done|]. split; [done|].
  destruct o as [n | i ts | i v now]; simpl in *.
  - destruct Ho as [-> | ->]; [by apply provenance_more|].
    intros k b Hb. simpl in Hb. apply lookup_app_Some in Hb as [Hb | [_ Hb]].
    + by apply (provenance_more pre [OpBucket n] p Hp).
    + left. apply list_lookup_singleton_Some in Hb as [_ <-]. done.
  - subst p'. by apply provenance_more.
  - unfold bind in Hstep. destruct (out_of_range p i) eqn:E.
    + rewrite (put_out_of_range p i v now E) in Hstep.
      injection Hstep as _ <-. by apply provenance_more.
    + apply out_of_range_false in E.
      destruct (put_in_range p i v now Hq E) as (b & Hb & Hput).
      rewrite Hput in Hstep. injection Hstep as _ <-.
      intros k c Hc. simpl in Hc.
      destruct (decide (Z.to_nat i = k)) as [<-|Hk].
      * rewrite list_lookup_insert_eq in Hc by (by eapply lookup_lt_Some).
        injection Hc as <-. right. simpl. rewrite Z2Nat.id by lia.
        apply elem_of_app. right. by apply list_elem_of_singleton.
      * rewrite list_lookup_insert_ne in Hc by done.
        by apply (provenance_more pre [OpPut i v now] p Hp).
Qed.

Lemma steps_provenance (os pre : list op) (p : DataPool) :
  quiescent p -> provenance pre p ->
  exists rs p', steps os p = Some (rs, p') /\ provenance (pre ++ os) p'.
Proof.
  revert pre p. induction os as [|o os IH]; intros pre p Hq Hp.
  - exists [], p. split; [done|]. by rewrite app_nil_r.
  - destruct (step_provenance o pre p Hq Hp) as (a & p1 & Hstep & Hq1 & Hp1).
    destruct (IH _ p1 Hq1 Hp1) as (rs & p2 & Hrun & Hp2).
    exists (a :: rs), p2. split.
    + simpl. by rewrite (bind_Some _ _ _ _ _ Hstep), (bind_Some _ _ _ _ _ Hrun).
    + by rewrite <- app_assoc in Hp2.
Qed.

(** X8: after any sequence of calls on a new pool, every cell holds either
    what it was created with (no value, timestamp 0) or the value and the
    clock reading of one and the same [put] to its identifier: a value is
    never paired with the timestamp of another write. *)
Theorem value_and_timestamp_from_one_put (os : list op) :
  exists rs p,
    steps os NewDataPool = Some (rs, p) /\
    forall k b, buckets p !! k = Some b ->
      (value b = None /\ timestamp b = 0) \/
      OpPut (Z.of_nat k) (value b) (timestamp b) ∈ os.
Proof.
  destruct (steps_provenance os [] NewDataPool quiescent_NewDataPool)
    as (rs & p & Hrun & Hp).
  - intros k b Hb. by destruct k.
  - by exists rs, p.
Qed.

(** X9: as long as no [put] reads the clock at 0, a timestamp 0 returned by
    [get] comes with no value, for every identifier in range or not: the
    timestamp alone tells a cell that was never written from one that
    holds a stored nil. *)
Theorem zero_timestamp_means_no_value (os : list op) :
  Forall clock_nonzero os ->
  exists rs p,
    steps os NewDataPool = Some (rs, p) /\
    forall i ts v t f, get i ts p = Some ((v, t, f), p) -> t = 0 -> v = None.
Proof.
  intros Hclock.
  destruct (steps_provenance os [] NewDataPool quiescent_NewDataPool)
    as (rs & p & Hrun & Hp).
  { intros k b Hb. by destruct k. }
  destruct (steps_spec os NewDataPool quiescent_NewDataPool)
    as (rs' & p' & Hrun' & Hq & _).
  rewrite Hrun in Hrun'. injection Hrun' as _ <-.
  exists rs, p. split; [done|]. intros i ts v t f Hget Ht.
  destruct (out_of_range p i) eqn:E.
  - unfold get in Hget. rewrite E in Hget. by injection Hget as <- _ _.
  - apply out_of_range_false in E. destruct (in_range_lookup _ _ E) as [b Hb].
    rewrite (get_cell p i ts b) in Hget; [|lia|done|].
    + injection Hget as <- <- _.
      destruct (Hp _ _ Hb) as [[Hv _] | Hin]; [done|].
      rewrite Forall_forall in Hclock. specialize (Hclock _ Hin). done.
    + by rewrite (quiescent_lookup _ _ _ Hq Hb).
Qed.

(** ** Goroutines resolving names that exist *)

Lemma advance_found (p : DataPool) (n : string) (i : nat) :
  scan n 0 (buckets p) = Some i ->
  advance (Entered n) p = Some (settle p (Entered n), p).
Proof. intros H. unfold advance, settle. by rewrite H. Qed.

(** Goroutines whose names exist each take one step, in any order, and the
    pool stays as it is. *)
Lemma schedule_found (p : DataPool) (sched : list nat) (gs : list goroutine) :
  NoDup sched ->
  (forall t, t ∈ sched ->
     exists n i, gs !! t = Some (Entered n) /\
                 scan n 0 (buckets p) = Some i) ->
  schedule sched gs p
  = Some (fold_left (fun gs' t => alter (settle p) t gs') sched gs, p).
Proof.
  revert gs. induction sched as [|t sched IH]; intros gs Hnd Hin; [done|].
  apply NoDup_cons in Hnd as [Ht Hnd].
  destruct (Hin t) as (n & i & Hg & Hscan); [by left|].
  simpl. rewrite Hg. rewrite (bind_Some _ _ _ _ _ (advance_found p n i Hscan)).
  assert (<[t := settle p (Entered n)]> gs = alter (settle p) t gs) as Halter.
  { rewrite list_insert_alter.
    apply list_eq. intros k. destruct (decide (t = k)) as [<-|Hk].
    + rewrite !list_lookup_alter_eq. by rewrite Hg.
    + by rewrite !list_lookup_alter_ne. }
  rewrite IH; [|done|].
  - by rewrite Halter.
  - intros t' Ht'. destruct (Hin t') as (n' & i' & Hg' & Hscan'); [by right|].
    exists n', i'. split; [|done].
    rewrite list_lookup_insert_ne; [done|]. by intros ->.
Qed.

Lemma lookup_settled (p : DataPool) (sched : list nat) (gs : list goroutine)
    (k : nat) :
  NoDup sched ->
  fold_left (fun gs' t => alter (settle p) t gs') sched gs !! k
  = if decide (k ∈ sched) then settle p <$> gs !! k else gs !! k.
Proof.
  revert gs. induction sched as [|t sched IH]; intros gs Hnd.
  - simpl. destruct (decide (k ∈ [])) as [Hk|_]; [|done].
    by apply elem_of_nil in Hk.
  - apply NoDup_cons in Hnd as [Ht Hnd]. simpl. rewrite (IH _ Hnd).
    destruct (decide (t = k)) as [<-|Hk].
    + rewrite list_lookup_alter_eq.
      destruct (decide (t ∈ sched)) as [|_]; [done|].
      destruct (decide (t ∈ t :: sched)) as [_|Hn]; [done|].
      exfalso. apply Hn. by left.
    + rewrite list_lookup_alter_ne by done.
      destruct (decide (k ∈ sched)) as [Hin|Hin];
        destruct (decide (k ∈ t :: sched)) as [Hin'|Hin']; try done.
      * exfalso. apply Hin'. by right.
      * exfalso. apply elem_of_cons in Hin' as [->|?]; done.
Qed.

(** X10: goroutines that resolve names the pool already has do not race:
    run in any order, each returns the handle the sequential call returns
    and the pool is left as it is. *)
Theorem resolving_existing_names_in_any_order
    (p : DataPool) (ns : list string) (sched : list nat) :
  Forall (fun n => n ∈ names p) ns ->
  sched ≡ₚ seq 0 (length ns) ->
  exists hs,
    Forall2 (fun n h => DataPool_Bucket n p = Some (h, p)) ns hs /\
    schedule sched (Entered <$> ns) p = Some (Returned <$> hs, p).
Proof.
  intros Hns Hperm.
  assert (NoDup sched) as Hnd by (rewrite Hperm; apply NoDup_seq).
  assert (forall n, n ∈ ns -> exists i, scan n 0 (buckets p) = Some i) as Hfound.
  { intros n Hn. rewrite Forall_forall in Hns. specialize (Hns n Hn).
    destruct (scan n 0 (buckets p)) as [i|] eqn:E; [by exists i|].
    by apply scan_None in E. }
  set (handle := fun n : string =>
    mkBucket (Z.of_nat (default 0%nat (scan n 0 (buckets p))))).
  exists (handle <$> ns). split.
  - apply Forall2_fmap_r, Forall_Forall2_diag, Forall_forall. intros n Hn.
    destruct (Hfound n Hn) as [i Hi]. unfold compose, handle. rewrite Hi. simpl.
    by apply Bucket_found.
  - rewrite (schedule_found p sched (Entered <$> ns) Hnd).
    + do 2 f_equal. apply list_eq. intros k.
      rewrite (lookup_settled p sched _ k Hnd), !list_lookup_fmap.
      destruct (ns !! k) as [n|] eqn:E; simpl.
      * rewrite decide_True.
        -- destruct (Hfound n) as [i Hi]; [by eapply list_elem_of_lookup_2|].
           unfold handle, settle. by rewrite Hi.
        -- rewrite Hperm. apply elem_of_seq. apply lookup_lt_Some in E. lia.
      * by destruct (decide (k ∈ sched)).
    + intros t Ht. rewrite Hperm in Ht. apply elem_of_seq in Ht.
      destruct (lookup_lt_is_Some_2 ns t) as [n Hn]; [lia|].
      destruct (Hfound n) as [i Hi]; [by eapply list_elem_of_lookup_2|].
      exists n, i. split; [|done]. by rewrite list_lookup_fmap, Hn.
Qed.

(** ** After two interleaved creations of one name *)

(** X12: when two goroutines have both created a cell for one new name,
    every later resolution of the name returns the first goroutine's
    handle.  What is put through the second goroutine's handle is read
    back through that handle only: a reader that resolves the name sees a
    cell that was never written. *)
Theorem write_through_duplicate_cell_is_not_read_by_name
    (n : string) (p : DataPool) (v : any) (now ts : Z) :
  quiescent p -> (n ∉ names p) ->
  exists h1 h2 p1 p2,
    schedule [0; 1; 0; 1]%nat [Entered n; Entered n] p
    = Some ([Returned h1; Returned h2], p1) /\
    Put h2 v now p1 = Some (now, p2) /\
    DataPool_Bucket n p2 = Some (h1, p2) /\
    Get h1 ts p2 = Some ((None, 0, 0 >? ts), p2) /\
    Get h2 ts p2 = Some ((v, now, now >? ts), p2).
Proof.
  intros Hq Hn.
  set (bs1 := buckets p ++ [new_bucket n]).
  set (p1 := mkDataPool (bs1 ++ [new_bucket n])).
  assert (quiescent p1) as Hq1.
  { apply (quiescent_append (mkDataPool bs1)), quiescent_append, Hq. }
  pose proof (len_nonneg p) as Hlen.
  assert (Z.to_nat (len p) = length (buckets p)) as Hto
    by (unfold len; by rewrite Nat2Z.id).
  assert (Z.to_nat (len p + 1) = length bs1) as Hto'.
  { unfold bs1. rewrite length_app. simpl. unfold len. lia. }
  assert (buckets p1 !! Z.to_nat (len p) = Some (new_bucket n)) as Hb1.
  { simpl. rewrite Hto. unfold bs1. rewrite <- app_assoc.
    rewrite lookup_app_r by done. by rewrite Nat.sub_diag. }
  assert (buckets p1 !! Z.to_nat (len p + 1) = Some (new_bucket n)) as Hb2.
  { simpl. rewrite Hto'. rewrite lookup_app_r by done.
    by rewrite Nat.sub_diag. }
  set (c := written (new_bucket n) v now).
  set (p2 := mkDataPool (<[Z.to_nat (len p + 1) := c]> (buckets p1))).
  assert (buckets p2 !! Z.to_nat (len p) = Some (new_bucket n)) as Hc1.
  { simpl. rewrite list_lookup_insert_ne by lia. exact Hb1. }
  exists (mkBucket (len p)), (mkBucket (len p + 1)), p1, p2.
  split; [by apply callers_interleaved|]. unfold Put, Get. simpl.
  split; [by apply (put_cell p1 _ v now (new_bucket n)); [lia|..]|].
  split; [|split].
  - rewrite (Bucket_found n p2 (length (buckets p))); [done|].
    apply (scan_keeps n bs1).
    + intros k b Hb. exists b. split; [|done]. simpl.
      rewrite list_lookup_insert_ne
        by (apply lookup_lt_Some in Hb; lia).
      by apply lookup_app_l_Some.
    + apply (scan_app_miss n 0 (buckets p)). by apply scan_None.
  - by apply (get_cell p2 _ ts (new_bucket n)); [lia|..].
  - apply (get_cell p2 _ ts c); [lia | | done].
    by apply (lookup_updated p1 _ (new_bucket n)).
Qed.

(** ** The mutex of a cell *)


(** X14: the mutex excludes: while a writer holds a cell, neither [get]
    nor [put] on it returns, and while readers hold it, [put] does not
    return. *)
Theorem held_cell_is_not_accessed
    (p : DataPool) (i : Z) (b : bucket) (v : any) (now ts : Z) :
  0 <= i -> buckets p !! Z.to_nat i = Some b ->
  (writer (guard b) = true ->
   get i ts p = None /\ put i v now p = None) /\
  (readers (guard b) <> 0%nat -> put i v now p = None).
Proof.
  intros Hi Hb. pose proof (lookup_bounds _ _ _ Hi Hb) as Hr.
  apply out_of_range_false in Hr.
  assert (forall op, op (guard b) = None -> on_guard op i p = None) as Hblock.
  { intros op Hop. unfold on_guard.
    by rewrite (bind_Some _ _ _ _ _ (cell_Some _ _ _ Hb)), Hop. }
  split.
  - intros Hw. split.
    + unfold get, bind. rewrite Hr, (Hblock RLock); [done|].
      unfold RLock. by rewrite Hw.
    + unfold put, bind. rewrite Hr, (Hblock Lock); [done|].
      unfold Lock. by rewrite Hw.
  - intros Hrd. unfold put, bind. rewrite Hr, (Hblock Lock); [done|].
    unfold Lock. destruct (writer (guard b)); [done|].
    by destruct (readers (guard b)).
Qed.

End datapool.

(** ** The theorems at work on concrete pools

    The values stored below are integers. *)

Local Open Scope string_scope.

(** A pool with one cell, written once. *)
Local Abbreviation pool_test :=
  (@mkDataPool Z [mkbucket "test" (Some 10) 7 unlocked]).

(** A pool with one cell, as [DataPool.Bucket] leaves it. *)
Local Abbreviation pool_fresh := (@mkDataPool Z [new_bucket "test"]).

Lemma quiescent_pool_test : quiescent pool_test.
Proof. repeat constructor. Qed.

Lemma quiescent_pool_fresh : quiescent pool_fresh.
Proof. repeat constructor. Qed.

(** The repository's tests, replayed with the clock at 1700000000000000000
    and, for the second write, one millisecond later. *)

Example TestBucket :
  steps [OpBucket "test"; OpBucket "test"; OpBucket "different"]
    (@NewDataPool Z)
  = Some ([ABucket (mkBucket 0); ABucket (mkBucket 0); ABucket (mkBucket 1)],
          mkDataPool [new_bucket "test"; new_bucket "different"]).
Proof. reflexivity. Qed.

Example TestUnfreshValue :
  steps [OpBucket "test"; OpPut 0 (Some 10) 1700000000000000000;
         OpGet 0 (int64_add 1700000000000000000 1)] (@NewDataPool Z)
  = Some ([ABucket (mkBucket 0); APut 1700000000000000000;
           AGet (Some 10, 1700000000000000000, false)],
          mkDataPool [mkbucket "test" (Some 10) 1700000000000000000 unlocked]).
Proof. by vm_compute. Qed.

Example TestFreshValue :
  steps [OpBucket "test"; OpPut 0 (Some 10) 1700000000000000000;
         OpGet 0 (int64_sub 1700000000000000000 1)] (@NewDataPool Z)
  = Some ([ABucket (mkBucket 0); APut 1700000000000000000;
           AGet (Some 10, 1700000000000000000, true)],
          mkDataPool [mkbucket "test" (Some 10) 1700000000000000000 unlocked]).
Proof. by vm_compute. Qed.

Example TestEmptyBucket :
  steps [OpBucket "test"; OpGet 0 0] (@NewDataPool Z)
  = Some ([ABucket (mkBucket 0); AGet (None, 0, false)], pool_fresh).
Proof. reflexivity. Qed.

Example TestNilValue :
  steps [OpBucket "test"; OpPut 0 None 1700000000000000000; OpGet 0 0]
    (@NewDataPool Z)
  = Some ([ABucket (mkBucket 0); APut 1700000000000000000;
           AGet (None, 1700000000000000000, true)],
          mkDataPool [mkbucket "test" None 1700000000000000000 unlocked]).
Proof. by vm_compute. Qed.

Example TestInvalidBucketID :
  steps [OpGet (-1) 0; OpGet 999 0; OpPut (-1) (Some 1) 1700000000000000000]
    (@NewDataPool Z)
  = Some ([AGet (None, 0, false); AGet (None, 0, false); APut 0], NewDataPool).
Proof. reflexivity. Qed.

Example TestSequentialUpdates :
  steps [OpBucket "test";
         OpPut 0 (Some 1) 1700000000000000000; OpGet 0 0;
         OpPut 0 (Some 2) 1700000000001000000; OpGet 0 0] (@NewDataPool Z)
  = Some ([ABucket (mkBucket 0);
           APut 1700000000000000000;
           AGet (Some 1, 1700000000000000000, true);
           APut 1700000000001000000;
           AGet (Some 2, 1700000000001000000, true)],
          mkDataPool [mkbucket "test" (Some 2) 1700000000001000000 unlocked]).
Proof. by vm_compute. Qed.

Lemma get_reads_cell_and_freshness_witness :
  (quiescent pool_test /\ 0 <= 0 < len pool_test) /\
  exists b fresh,
    buckets pool_test !! Z.to_nat 0 = Some b /\
    get 0 6 pool_test = Some ((value b, timestamp b, fresh), pool_test) /\
    (fresh = true <-> 6 < timestamp b).
Proof.
  assert (0 <= 0 < len pool_test) as Hi by (unfold len; simpl; lia).
  split; [split; [apply quiescent_pool_test | exact Hi]|].
  exact (get_reads_cell_and_freshness pool_test 0 6 quiescent_pool_test Hi).
Defined.

Lemma Put_then_Get_round_trip_witness :
  exists p1 rs p2,
    Put (mkBucket 0) (Some 10) 1700000000000000000 pool_fresh
    = Some (1700000000000000000, p1) /\
    steps [OpBucket "other"; OpGet 0 0] p1 = Some (rs, p2) /\
    Get (mkBucket 0) (1700000000000000000 - 1) p2
    = Some ((Some 10, 1700000000000000000, true), p2) /\
    Get (mkBucket 0) (1700000000000000000 + 1) p2
    = Some ((Some 10, 1700000000000000000, false), p2).
Proof.
  apply (Put_then_Get_round_trip pool_fresh (mkBucket 0) (Some 10)
           1700000000000000000 [OpBucket "other"; OpGet 0 0]).
  - apply quiescent_pool_fresh.
  - unfold len. simpl. lia.
  - reflexivity.
Defined.

(** C4, where it fails: a cell that was never written is fresh against the
    compare timestamp -1, since its timestamp 0 is strictly greater. *)
Lemma never_written_cell_fresh_against_negative :
  ~ (forall (os : list (@op Z)) (i ts : Z),
       existsb (puts_to i) os = false ->
       exists rs p,
         steps os NewDataPool = Some (rs, p) /\
         (0 <= i < len p -> get i ts p = Some ((None, 0, false), p))).
Proof.
  intros H.
  destruct (H [OpBucket "test"] 0 (-1) eq_refl) as (rs & p & Hrun & Hget).
  injection Hrun as _ <-.
  assert (0 <= 0 < len pool_fresh) as Hi by (unfold len; simpl; lia).
  specialize (Hget Hi). vm_compute in Hget. discriminate Hget.
Qed.

Lemma never_written_cell_reads_empty_witness :
  exists rs p,
    steps [OpBucket "test"; OpBucket "other"; OpPut 1 (Some 3) 9]
      (@NewDataPool Z) = Some (rs, p) /\
    (0 <= 0 < len p -> get 0 0 p = Some ((None, 0, false), p)).
Proof.
  apply (never_written_cell_reads_empty
           [OpBucket "test"; OpBucket "other"; OpPut 1 (Some 3) 9] 0 0).
  - reflexivity.
  - lia.
Defined.

(** C5, where it fails: two [put]s that read the same clock value return
    the same timestamp. *)
Lemma equal_clock_readings_give_equal_timestamps :
  ~ (forall (p : @DataPool Z) (i : Z) (v1 v2 : any) (now1 now2 : Z),
       quiescent p -> 0 <= i < len p ->
       exists t1 p1 t2 p2,
         put i v1 now1 p = Some (t1, p1) /\
         put i v2 now2 p1 = Some (t2, p2) /\
         t1 < t2).
Proof.
  intros H.
  assert (0 <= 0 < len pool_fresh) as Hi by (unfold len; simpl; lia).
  destruct (H pool_fresh 0 (Some 1) (Some 2) 5 5 quiescent_pool_fresh Hi)
    as (t1 & p1 & t2 & p2 & H1 & H2 & Hlt).
  vm_compute in H1. injection H1 as <- <-.
  vm_compute in H2. injection H2 as <- <-. lia.
Qed.

Lemma sequential_puts_follow_the_clock_witness :
  exists t1 p1 rs1 p1' t2 p2 rs2 p3,
    put 0 (Some 1) 5 pool_fresh = Some (t1, p1) /\
    steps [OpGet 0 0] p1 = Some (rs1, p1') /\
    put 0 (Some 2) 6 p1' = Some (t2, p2) /\
    steps [OpBucket "other"] p2 = Some (rs2, p3) /\
    t1 = 5 /\ t2 = 6 /\ t1 < t2 /\
    forall ts, get 0 ts p3 = Some ((Some 2, t2, t2 >? ts), p3).
Proof.
  apply (sequential_puts_follow_the_clock pool_fresh 0 (Some 1) (Some 2) 5 6
           [OpGet 0 0] [OpBucket "other"]).
  - apply quiescent_pool_fresh.
  - unfold len. simpl. lia.
  - lia.
  - reflexivity.
Defined.

Lemma out_of_range_is_noop_witness :
  get (-1) 42 pool_test = Some ((None, 42, false), pool_test) /\
  put (-1) (Some 5) 1700000000000000000 pool_test = Some (0, pool_test).
Proof.
  apply (out_of_range_is_noop pool_test (-1) 42 (Some 5) 1700000000000000000).
  left. lia.
Defined.

Lemma calls_preserve_pool_invariant_witness :
  exists a p',
    step (OpBucket "other") pool_test = Some (a, p') /\
    pool_inv p' /\
    (forall k b, buckets pool_test !! k = Some b ->
       exists b', buckets p' !! k = Some b' /\ name b' = name b) /\
    len pool_test <= len p' /\
    (p' = pool_test \/
     p' = mkDataPool (buckets pool_test ++ [new_bucket "other"])).
Proof.
  apply (calls_preserve_pool_invariant (OpBucket "other") pool_test).
  split.
  - apply NoDup_singleton.
  - apply quiescent_pool_test.
Defined.

Lemma handle_never_out_of_range_witness :
  exists h p1 rs p2 b,
    DataPool_Bucket "test" (@NewDataPool Z) = Some (h, p1) /\
    0 <= id h < len p1 /\
    steps [OpBucket "other"; OpPut 0 (Some 1) 5] p1 = Some (rs, p2) /\
    out_of_range p2 (id h) = false /\
    buckets p2 !! Z.to_nat (id h) = Some b /\ name b = "test" /\
    (forall ts,
       Get h ts p2 = Some ((value b, timestamp b, timestamp b >? ts), p2)) /\
    (forall v now, exists p3,
       Put h v now p2 = Some (now, p3) /\
       buckets p3 !! Z.to_nat (id h) = Some (mkbucket "test" v now (guard b))).
Proof.
  apply (handle_never_out_of_range "test" NewDataPool
           [OpBucket "other"; OpPut 0 (Some 1) 5]).
  apply quiescent_NewDataPool.
Defined.

Lemma put_writes_one_cell_get_writes_none_witness :
  exists b p',
    buckets pool_test !! Z.to_nat 0 = Some b /\
    put 0 (Some 11) 8 pool_test = Some (8, p') /\
    len p' = len pool_test /\
    buckets p' !! Z.to_nat 0 = Some (mkbucket (name b) (Some 11) 8 (guard b)) /\
    (forall k, k <> Z.to_nat 0 -> buckets p' !! k = buckets pool_test !! k) /\
    (forall j ts, exists r, get j ts pool_test = Some (r, pool_test)).
Proof.
  apply (put_writes_one_cell_get_writes_none pool_test 0 (Some 11) 8).
  - apply quiescent_pool_test.
  - unfold len. simpl. lia.
Defined.

(** The further theorems on concrete pools. *)

Lemma different_names_different_identifiers_witness :
  exists h1 p1 rs p2 h2 p3,
    DataPool_Bucket "users" pool_test = Some (h1, p1) /\
    steps [OpPut 1 (Some 4) 9; OpGet 0 0] p1 = Some (rs, p2) /\
    DataPool_Bucket "config" p2 = Some (h2, p3) /\
    id h1 <> id h2.
Proof.
  apply (different_names_different_identifiers "users" "config" pool_test
           [OpPut 1 (Some 4) 9; OpGet 0 0]).
  - apply quiescent_pool_test.
  - discriminate.
Defined.

Lemma name_keeps_its_identifier_witness :
  exists h p1 rs p2,
    DataPool_Bucket "users" pool_test = Some (h, p1) /\
    steps [OpBucket "config"; OpPut 1 (Some 4) 9] p1 = Some (rs, p2) /\
    DataPool_Bucket "users" p2 = Some (h, p2).
Proof.
  apply (name_keeps_its_identifier "users" pool_test
           [OpBucket "config"; OpPut 1 (Some 4) 9]).
  apply quiescent_pool_test.
Defined.

(** A pool with two cells. *)
Local Abbreviation pool_two :=
  (@mkDataPool Z [mkbucket "a" (Some 1) 3 unlocked; new_bucket "b"]).

Lemma quiescent_pool_two : quiescent pool_two.
Proof. repeat constructor. Qed.

Lemma puts_to_different_cells_commute_witness :
  exists p1 q1 p2,
    put 0 (Some 5) 10 pool_two = Some (10, p1) /\
    put 1 (Some 6) 11 p1 = Some (11, p2) /\
    put 1 (Some 6) 11 pool_two = Some (11, q1) /\
    put 0 (Some 5) 10 q1 = Some (10, p2).
Proof.
  apply (puts_to_different_cells_commute pool_two 0 1 (Some 5) (Some 6) 10 11).
  - apply quiescent_pool_two.
  - unfold len. simpl. lia.
  - unfold len. simpl. lia.
  - lia.
Defined.

Lemma put_invisible_to_other_identifiers_witness :
  exists r t p',
    get 0 2 pool_two = Some (r, pool_two) /\
    put 1 (Some 6) 11 pool_two = Some (t, p') /\
    get 0 2 p' = Some (r, p').
Proof.
  apply (put_invisible_to_other_identifiers pool_two 1 0 (Some 6) 11 2).
  - apply quiescent_pool_two.
  - lia.
Defined.

Lemma polling_with_the_returned_timestamp_witness :
  exists v t f,
    get 0 0 pool_test = Some ((v, t, f), pool_test) /\
    get 0 t pool_test = Some ((v, t, false), pool_test) /\
    forall w now, 0 <= 0 < len pool_test -> t < now ->
      exists p', put 0 w now pool_test = Some (now, p') /\
                 get 0 t p' = Some ((w, now, true), p').
Proof.
  apply (polling_with_the_returned_timestamp pool_test 0 0).
  apply quiescent_pool_test.
Defined.

Lemma value_read_back_by_name_witness :
  exists h1 p1 p2 rs p3 h2,
    DataPool_Bucket "users" pool_test = Some (h1, p1) /\
    Put h1 (Some 42) 1700000000000000000 p1
    = Some (1700000000000000000, p2) /\
    steps [OpBucket "config"; OpPut 0 (Some 1) 8] p2 = Some (rs, p3) /\
    DataPool_Bucket "users" p3 = Some (h2, p3) /\
    (existsb (puts_to (id h1)) [OpBucket "config"; OpPut 0 (Some 1) 8] = false ->
     Get h2 0 p3
     = Some ((Some 42, 1700000000000000000, 1700000000000000000 >? 0), p3)).
Proof.
  apply (value_read_back_by_name "users" pool_test (Some 42)
           1700000000000000000 [OpBucket "config"; OpPut 0 (Some 1) 8] 0).
  apply quiescent_pool_test.
Defined.

Lemma zero_timestamp_means_no_value_witness :
  exists rs p,
    steps [OpBucket "a"; OpBucket "b"; OpPut 0 None 5; OpGet 1 0]
      (@NewDataPool Z) = Some (rs, p) /\
    forall i ts v t f, get i ts p = Some ((v, t, f), p) -> t = 0 -> v = None.
Proof.
  apply (zero_timestamp_means_no_value
           [OpBucket "a"; OpBucket "b"; OpPut 0 None 5; OpGet 1 0]).
  repeat constructor. simpl. lia.
Defined.

Lemma resolving_existing_names_in_any_order_witness :
  exists hs,
    Forall2 (fun n h => DataPool_Bucket n pool_two = Some (h, pool_two))
      ["b"; "a"; "b"] hs /\
    schedule [2; 0; 1]%nat (Entered <$> ["b"; "a"; "b"]) pool_two
    = Some (Returned <$> hs, pool_two).
Proof.
  apply (resolving_existing_names_in_any_order pool_two ["b"; "a"; "b"]
           [2; 0; 1]%nat).
  - repeat constructor.
  - simpl. apply (Permutation_cons_app [0%nat; 1%nat] [] 2%nat).
    reflexivity.
Defined.

Lemma write_through_duplicate_cell_is_not_read_by_name_witness :
  exists h1 h2 p1 p2,
    schedule [0; 1; 0; 1]%nat [Entered "x"; Entered "x"] pool_test
    = Some ([Returned h1; Returned h2], p1) /\
    Put h2 (Some 7) 9 p1 = Some (9, p2) /\
    DataPool_Bucket "x" p2 = Some (h1, p2) /\
    Get h1 0 p2 = Some ((None, 0, 0 >? 0), p2) /\
    Get h2 0 p2 = Some ((Some 7, 9, 9 >? 0), p2).
Proof.
  apply (write_through_duplicate_cell_is_not_read_by_name "x" pool_test
           (Some 7) 9 0).
  - apply quiescent_pool_test.
  - unfold names. simpl. intros H. apply list_elem_of_singleton in H.
    discriminate H.
Defined.

(** A pool whose first cell two readers hold and whose second cell a
    writer holds. *)
Local Abbreviation pool_busy :=
  (@mkDataPool Z [mkbucket "a" (Some 1) 3 (mkRWMutex 2 false);
                  mkbucket "b" None 0 (mkRWMutex 0 true);
                  new_bucket "c"]).


Lemma held_cell_is_not_accessed_witness :
  (get 1 0 pool_busy = None /\ put 1 (Some 5) 9 pool_busy = None) /\
  put 0 (Some 5) 9 pool_busy = None.
Proof.
  split.
  - apply (proj1 (held_cell_is_not_accessed pool_busy 1
             (mkbucket "b" None 0 (mkRWMutex 0 true)) (Some 5) 9 0
             ltac:(lia) eq_refl)).
    reflexivity.
  - apply (proj2 (held_cell_is_not_accessed pool_busy 0
             (mkbucket "a" (Some 1) 3 (mkRWMutex 2 false)) (Some 5) 9 0
             ltac:(lia) eq_refl)).
    simpl. lia.
Defined.
